(** * encryptedstring: field-level encryption and blind-index hashing

    A shallow embedding of [encryptedstring.go]: the process-wide key
    registry ([AddKey]), the versioned AES-GCM codec ([Encrypt], [Decrypt])
    with its database adapters ([Value], [Scan]), and the HMAC-SHA512 blind
    index ([GetHash], [GetBase64], [BlindIndexHash.Value]).

    Go code is modelled as state passing over a [World] that holds the
    package variable [encryptionKeys], the entropy [crypto/rand.Reader] can
    still deliver and the trace of calls made to the outside (the crypto
    libraries and standard output).  A function that returns [(T, error)]
    is a computation yielding [Ok v], [Err e] or, for a run-time panic,
    [Panic p]. *)

From Stdlib Require Import Init.Byte Strings.Byte Strings.String Strings.Ascii.
From Stdlib Require Import NArith Lia.
From stdpp Require Import base option list gmap strings.


(** ** Bytes *)

Abbreviation bytes := (list byte).

#[global] Instance byte_eq_decision : EqDecision byte := byte_eq_dec.

(** ** Errors and panics *)

(** The package's error values (lines 20-24) and the errors of the
    libraries the package lets through: [aes.KeySizeError], the one error of
    [cipher.AEAD.Open], and the two errors of [io.ReadFull]. *)
Inductive error : Type :=
  | ErrShortCipher
  | ErrVersionMismatch
  | ErrSrcNotBytes
  | ErrNoSuchKey
  | ErrKeyAlreadyExists
  | KeySizeError (k : nat)
  | errOpen
  | EOF
  | ErrUnexpectedEOF.

(** Run-time panics: an index or a slice expression out of range, and the
    panic of [Seal] and [Open] on a nonce of the wrong length. *)
Inductive panic : Type :=
  | IndexOutOfRange (i len : nat)
  | SliceOutOfRange (lo hi len : nat)
  | IncorrectNonceLength (n : nat).

Inductive res (A : Type) : Type :=
  | Ok (a : A)
  | Err (e : error)
  | Panic (p : panic).
Arguments Ok {A} a.
Arguments Err {A} e.
Arguments Panic {A} p.

(** ** The world *)

(** What the package does to the outside, in order. *)
Inductive event : Type :=
  | EvNewCipher (key : bytes)
  | EvRandRead (n : nat)
  | EvNewGCM
  | EvSeal (nonce plaintext : bytes)
  | EvOpen (nonce sealed : bytes)
  | EvHMAC (key msg : bytes)
  | EvPrintln (line : string).

Record World : Type := mkWorld {
  encryptionKeys : gmap string bytes;
  randReader : bytes;
  trace : list event
}.

Definition set_keys (m : gmap string bytes) (w : World) : World :=
  mkWorld m (randReader w) (trace w).
Definition set_rand (r : bytes) (w : World) : World :=
  mkWorld (encryptionKeys w) r (trace w).
Definition log (ev : event) (w : World) : World :=
  mkWorld (encryptionKeys w) (randReader w) (trace w ++ [ev]).

(** ** The monad of Go computations over a state [S] *)

Definition M (S A : Type) : Type := S -> res A * S.

Definition ret {S A} (a : A) : M S A := fun s => (Ok a, s).
Definition throw {S A} (e : error) : M S A := fun s => (Err e, s).
Definition crash {S A} (p : panic) : M S A := fun s => (Panic p, s).

(** [x <- c ;; k]: run [c]; on a non-nil error return it at once (the
    source's [if err != nil { return ..., err }]), on a panic unwind. *)
Definition bind {S A B} (c : M S A) (k : A -> M S B) : M S B :=
  fun s =>
    match c s with
    | (Ok a, s') => k a s'
    | (Err e, s') => (Err e, s')
    | (Panic p, s') => (Panic p, s')
    end.

Notation "x <- c ;; k" := (bind c (fun x => k))
  (at level 100, c at next level, right associativity).
Notation "c ;;; k" := (bind c (fun _ => k))
  (at level 100, right associativity).

Definition gets {S A} (f : S -> A) : M S A := fun s => (Ok (f s), s).
Definition modify {S} (f : S -> S) : M S unit := fun s => (Ok tt, f s).

Abbreviation Go := (M World).

(** ** The key registry (lines 17-38) *)

Definition AddKey (name : string) (key : bytes) : Go unit :=
  keys <- gets encryptionKeys ;;
  match keys !! name with
  | Some _ => throw ErrKeyAlreadyExists
  | None => modify (set_keys (<[name := key]> keys))
  end.

(** [encryptionKeys[name]]: indexing a Go map yields the zero value, a nil
    slice, for a name that is absent. *)
Definition map_index (name : string) : Go bytes :=
  keys <- gets encryptionKeys ;;
  ret (default [] (keys !! name)).

(** ** Constants (lines 27-30) *)

Definition encryptionVersion : byte := x00.
Definition blockSize : nat := 12.

(** ** The libraries the package calls *)

(** [crypto/aes], [crypto/cipher] and [crypto/hmac] are taken through their
    interface.  [gcm_seal key nonce plaintext] is what
    [cipher.NewGCM(aes.NewCipher(key)).Seal(nil, nonce, plaintext, nil)]
    returns, [gcm_open key nonce sealed] what [Open(nil, nonce, sealed, nil)]
    returns ([None] for its one error), and [hmac_sha512 key msg] the sum of
    an HMAC over SHA-512.  Messages stay below GCM's size limit of 64 GiB. *)
Class CryptoLib : Type := {
  gcm_seal : bytes -> bytes -> bytes -> bytes;
  gcm_open : bytes -> bytes -> bytes -> option bytes;
  hmac_sha512 : bytes -> bytes -> bytes
}.

(** [aes.NewCipher] accepts keys of 16, 24 and 32 bytes. *)
Definition aes_key_size_ok (k : nat) : bool :=
  match k with
  | 16 | 24 | 32 => true
  | _ => false
  end.

(** [gcmTagSize] and the standard nonce size of [crypto/cipher]. *)
Definition gcmTagSize : nat := 16.
Definition gcmStandardNonceSize : nat := 12.

(** What the package relies on: [Open] undoes [Seal] under the same key and
    nonce, [Seal] appends a 16-byte tag, and the HMAC has SHA-512's size. *)
Class CryptoLaws (L : CryptoLib) : Prop := {
  gcm_open_seal : forall key nonce plaintext,
    aes_key_size_ok (length key) = true ->
    length nonce = gcmStandardNonceSize ->
    gcm_open key nonce (gcm_seal key nonce plaintext) = Some plaintext;
  gcm_seal_length : forall key nonce plaintext,
    length (gcm_seal key nonce plaintext) = length plaintext + gcmTagSize;
  hmac_sha512_length : forall key msg,
    length (hmac_sha512 key msg) = 64
}.

(** Flipping bit [i] of a byte sequence: bit [i mod 8] of byte [i / 8]. *)
Definition flip_bit_byte (j : nat) (b : byte) : byte :=
  default b (Byte.of_N (N.lxor (Byte.to_N b) (N.shiftl 1 (N.of_nat j)))).

Definition flip_bit (i : nat) (c : bytes) : bytes :=
  alter (flip_bit_byte (i mod 8)) (i / 8) c.

(** Authenticity against single-bit flips, for one key: no sealed message
    with one bit flipped opens. *)
Definition rejects_bit_flips (L : CryptoLib) (key : bytes) : Prop :=
  forall nonce plaintext i,
    length nonce = gcmStandardNonceSize ->
    i < 8 * length (gcm_seal key nonce plaintext) ->
    gcm_open key nonce (flip_bit i (gcm_seal key nonce plaintext)) = None.

Record Block : Type := mkBlock { block_key : bytes }.
Record AEAD : Type := mkAEAD { aead_key : bytes }.
Record HMAC : Type := mkHMAC { mac_key : bytes; mac_written : bytes }.

Section Library.
Context {L : CryptoLib}.

(** [aes.NewCipher(key)] *)
Definition aes_NewCipher (key : bytes) : Go Block :=
  modify (log (EvNewCipher key)) ;;;
  if aes_key_size_ok (length key) then ret (mkBlock key)
  else throw (KeySizeError (length key)).

(** [io.ReadFull(rand.Reader, buf)] with [len(buf) = n]: [n] fresh bytes, or
    [EOF] when the source has nothing left and [ErrUnexpectedEOF] when it
    runs dry half way. *)
Definition io_ReadFull_rand (n : nat) : Go bytes :=
  fun w =>
    let avail := randReader w in
    let w' := log (EvRandRead n) w in
    if decide (n <= length avail)
    then (Ok (take n avail), set_rand (drop n avail) w')
    else (Err (match avail with [] => EOF | _ => ErrUnexpectedEOF end),
          set_rand [] w').

(** [cipher.NewGCM(block)]: an AES block has the 128-bit block size GCM
    asks for, so no error. *)
Definition cipher_NewGCM (block : Block) : Go AEAD :=
  modify (log EvNewGCM) ;;;
  ret (mkAEAD (block_key block)).

(** [aesgcm.Seal(nil, nonce, plaintext, nil)] *)
Definition Seal (aesgcm : AEAD) (nonce plaintext : bytes) : Go bytes :=
  modify (log (EvSeal nonce plaintext)) ;;;
  if decide (length nonce = gcmStandardNonceSize)
  then ret (gcm_seal (aead_key aesgcm) nonce plaintext)
  else crash (IncorrectNonceLength (length nonce)).

(** [aesgcm.Open(nil, nonce, ciphertext, nil)] *)
Definition Open (aesgcm : AEAD) (nonce ciphertext : bytes) : Go bytes :=
  modify (log (EvOpen nonce ciphertext)) ;;;
  if decide (length nonce = gcmStandardNonceSize)
  then match gcm_open (aead_key aesgcm) nonce ciphertext with
       | Some plaintext => ret plaintext
       | None => throw errOpen
       end
  else crash (IncorrectNonceLength (length nonce)).

(** [hmac.New(sha512.New, key)], [mac.Write(p)] (a hash never returns an
    error from [Write]) and [mac.Sum(nil)]. *)
Definition hmac_New (key : bytes) : Go HMAC := ret (mkHMAC key []).
Definition mac_Write (mac : HMAC) (p : bytes) : Go HMAC :=
  ret (mkHMAC (mac_key mac) (mac_written mac ++ p)).
Definition mac_Sum (mac : HMAC) : Go bytes :=
  modify (log (EvHMAC (mac_key mac) (mac_written mac))) ;;;
  ret (hmac_sha512 (mac_key mac) (mac_written mac)).

End Library.

(** [fmt.Println(line)] *)
Definition fmt_Println (line : string) : Go unit :=
  modify (log (EvPrintln line)).

(** [s[i]] and [s[lo:hi]] with their bounds checks. *)
Definition index {S} (s : bytes) (i : nat) : M S byte :=
  match s !! i with
  | Some b => ret b
  | None => crash (IndexOutOfRange i (length s))
  end.

Definition slice {S} (s : bytes) (lo hi : nat) : M S bytes :=
  if decide (lo <= hi <= length s) then ret (take (hi - lo) (drop lo s))
  else crash (SliceOutOfRange lo hi (length s)).

(** ** [base64.URLEncoding.EncodeToString] *)

Definition encodeURL : string :=
  "ABCDEFGHIJKLMNOPQRSTUVWXYZabcdefghijklmnopqrstuvwxyz0123456789-_".

(** [enc.encode[val & 0x3F]] *)
Definition enc6 (val : N) : ascii :=
  default "="%char (list_ascii_of_string encodeURL !! N.to_nat (N.land val 63)).

Definition padChar : ascii := "="%char.

Fixpoint EncodeToString (src : bytes) : string :=
  match src with
  | [] => EmptyString
  | [a] =>
      let val := N.shiftl (Byte.to_N a) 16 in
      String (enc6 (N.shiftr val 18)) (String (enc6 (N.shiftr val 12))
        (String padChar (String padChar EmptyString)))
  | [a; b] =>
      let val := N.lor (N.shiftl (Byte.to_N a) 16) (N.shiftl (Byte.to_N b) 8) in
      String (enc6 (N.shiftr val 18)) (String (enc6 (N.shiftr val 12))
        (String (enc6 (N.shiftr val 6)) (String padChar EmptyString)))
  | a :: b :: c :: rest =>
      let val := N.lor (N.lor (N.shiftl (Byte.to_N a) 16)
                              (N.shiftl (Byte.to_N b) 8)) (Byte.to_N c) in
      String (enc6 (N.shiftr val 18)) (String (enc6 (N.shiftr val 12))
        (String (enc6 (N.shiftr val 6)) (String (enc6 val)
          (EncodeToString rest))))
  end.

(** ** [driver.Value] and the [interface{}] that [Scan] receives *)

Inductive driver_Value : Type :=
  | VNil
  | VInt64 (i : Z)
  | VFloat64 (bits : Z)
  | VBool (b : bool)
  | VBytes (v : bytes)
  | VString (s : string)
  | VTime (unix_nano : Z).

(** ** [encoding/base64] decoding and [encoding/json] *)

(** [base64.URLEncoding.Decode(dst, src)] and [json.Marshal] of a string are
    taken through their interface.  [base64_Decode src] is the part [dst[:n]]
    that [Decode] wrote into a buffer of [DecodedLen(len(src))] bytes and the
    offset of its [CorruptInputError], if it returned one;
    [json_Marshal_string s] is the JSON literal of [s]. *)
Class EncodingLib : Type := {
  base64_Decode : bytes -> bytes * option nat;
  json_Marshal_string : string -> bytes
}.

(** The double quote, as a byte. *)
Definition quote : byte := x22.

(** Text over the alphabet of [base64.URLEncoding] and its padding, which
    [json.Marshal] copies without escapes. *)
Definition url_safe_char (c : ascii) : bool :=
  existsb (Ascii.eqb c) (list_ascii_of_string encodeURL) || Ascii.eqb c padChar.

Definition url_safe (s : string) : bool :=
  forallb url_safe_char (list_ascii_of_string s).

(** What the package relies on: [Decode] undoes [EncodeToString], and
    [json.Marshal] of URL-safe base64 text is the text between two quotes. *)
Class EncodingLaws (E : EncodingLib) : Prop := {
  base64_Decode_Encode : forall src,
    base64_Decode (list_byte_of_string (EncodeToString src)) = (src, None);
  json_Marshal_url_safe : forall s,
    url_safe s = true ->
    json_Marshal_string s = quote :: list_byte_of_string s ++ [quote]
}.

(** [json.Marshal(s)] for a string [s]: it returns no error. *)
Definition json_Marshal {E : EncodingLib} (s : string) : Go bytes :=
  ret (json_Marshal_string s).

(** The errors [UnmarshalJSON] returns: those of the codec, and
    [base64.CorruptInputError]. *)
Inductive json_error : Type :=
  | CodecError (e : error)
  | CorruptInputError (offset : nat).

Inductive jres (A : Type) : Type :=
  | JOk (a : A)
  | JErr (e : json_error)
  | JPanic (p : panic).
Arguments JOk {A} a.
Arguments JErr {A} e.
Arguments JPanic {A} p.

(** ** [EncryptedString] (lines 40-159) *)

Module EncryptedString.
Section Methods.
Context {L : CryptoLib}.

Definition t : Type := string.

(** Lines 98-123. *)
Definition Encrypt (e : t) : Go bytes :=
  key <- map_index "encrypt" ;;
  block <- aes_NewCipher key ;;
  let ciphertext := [] ++ [encryptionVersion] in
  nonce <- io_ReadFull_rand blockSize ;;
  let ciphertext := ciphertext ++ nonce in
  aesgcm <- cipher_NewGCM block ;;
  cText <- Seal aesgcm nonce (list_byte_of_string e) ;;
  let ciphertext := ciphertext ++ cText in
  ret ciphertext.

(** Lines 126-159.  The receiver is not used. *)
Definition Decrypt (e : t) (ciphertext : bytes) : Go string :=
  key <- map_index "encrypt" ;;
  block <- aes_NewCipher key ;;
  version <- index ciphertext 0 ;;
  if negb (Byte.eqb version encryptionVersion) then
    fmt_Println "Encryption versions don't match" ;;;
    throw ErrVersionMismatch
  else if length ciphertext <? blockSize + 1 then
    throw ErrShortCipher
  else
    nonce <- slice ciphertext 1 (blockSize + 1) ;;
    aesgcm <- cipher_NewGCM block ;;
    ciphertext <- slice ciphertext (blockSize + 1) (length ciphertext) ;;
    plaintext <- Open aesgcm nonce ciphertext ;;
    ret (string_of_list_byte plaintext).

(** Lines 45-55. *)
Definition Value (e : t) : Go driver_Value :=
  if String.eqb e "" then ret (VBytes [])
  else
    val <- Encrypt e ;;
    ret (VBytes val).

(** A method with a pointer receiver runs over the pointee and the world. *)
Definition lift {A} (c : Go A) : M (t * World) A :=
  fun s => let '(r, w') := c s.2 in (r, (s.1, w')).
Definition load : M (t * World) t := gets fst.
Definition store (v : t) : M (t * World) unit := modify (fun s => (v, s.2)).

(** Lines 58-74: [nil] is [Ok tt]. *)
Definition Scan (src : driver_Value) : M (t * World) unit :=
  match src with
  | VBytes v =>
      if length v =? 0 then store ""
      else
        e <- load ;;
        val <- lift (Decrypt e v) ;;
        store val
  | _ => throw ErrSrcNotBytes
  end.

End Methods.

Section JSON.
Context {L : CryptoLib} {E : EncodingLib}.

(** Lines 76-82. *)
Definition MarshalJSON (e : t) : Go bytes :=
  enc <- Encrypt e ;;
  json_Marshal (EncodeToString enc).

(** Lines 84-95.  [b64[1 : len(b64)-1]] panics on fewer than two bytes (for
    the empty input Go reports the bound -1, here 0).  [Decrypt] returns the
    empty string beside every error, and the receiver is assigned before the
    error is looked at. *)
Definition UnmarshalJSON (b64 : bytes) : t * World -> jres unit * (t * World) :=
  fun s =>
    match slice b64 1 (length b64 - 1) s with
    | (Ok b64, s) =>
        let '(ciphertext, err) := base64_Decode b64 in
        match err with
        | Some offset => (JErr (CorruptInputError offset), s)
        | None =>
            match lift (Decrypt s.1 ciphertext) s with
            | (Ok v, s) => (JOk tt, (v, s.2))
            | (Err err, s) => (JErr (CodecError err), (""%string, s.2))
            | (Panic p, s) => (JPanic p, s)
            end
        end
    | (Err err, s) => (JErr (CodecError err), s)
    | (Panic p, s) => (JPanic p, s)
    end.

End JSON.
End EncryptedString.

(** ** [BlindIndexHash] (lines 161-194) *)

Module BlindIndexHash.
Section Methods.
Context {L : CryptoLib}.

Definition t : Type := string.

(** Lines 178-185. *)
Definition GetHash (b : t) : Go bytes :=
  key <- map_index "blindIndex" ;;
  mac <- hmac_New key ;;
  mac <- mac_Write mac (list_byte_of_string b) ;;
  mac_Sum mac.

(** Lines 188-194. *)
Definition GetBase64 (b : t) : Go string :=
  byts <- GetHash b ;;
  ret (EncodeToString byts).

(** Lines 166-176. *)
Definition Value (b : t) : Go driver_Value :=
  if String.eqb b "" then ret (VString "")
  else
    val <- GetBase64 b ;;
    ret (VString val).

End Methods.
End BlindIndexHash.

(** ** A reference implementation of the library interface

    A keyed additive stream with a one-byte additive checksum in a 16-byte
    tag.  It is not AES-GCM; it shows that the interface and its laws can be
    met, and lets the package run on concrete inputs. *)

Module RefLib.

Definition byte_of_N (n : N) : byte := default x00 (Byte.of_N (n mod 256)).
Definition badd (a b : byte) : byte := byte_of_N (Byte.to_N a + Byte.to_N b).
Definition bsub (a b : byte) : byte :=
  byte_of_N (Byte.to_N a + 256 - Byte.to_N b).
Definition bsum (l : bytes) : byte := foldr badd x00 l.

Definition pad (key nonce : bytes) : byte := bsum (key ++ nonce).

Definition tag (key nonce body : bytes) : bytes :=
  badd (pad key nonce) (bsum body) :: replicate 15 (pad key nonce).

Definition seal (key nonce plaintext : bytes) : bytes :=
  let body := map (badd (pad key nonce)) plaintext in
  body ++ tag key nonce body.

Definition open (key nonce sealed : bytes) : option bytes :=
  if length sealed <? gcmTagSize then None
  else
    let n := length sealed - gcmTagSize in
    let body := take n sealed in
    if decide (drop n sealed = tag key nonce body)
    then Some (map (fun b => bsub b (pad key nonce)) body)
    else None.

Definition mac (key msg : bytes) : bytes := replicate 64 (bsum (key ++ msg)).

Definition lib : CryptoLib :=
  {| gcm_seal := seal; gcm_open := open; hmac_sha512 := mac |}.

End RefLib.

(** ** [BlindIndexStrong] (lines 196-203) *)

Module BlindIndexStrong.

Definition t : Type := string.

(** Lines 200-203: not implemented, [nil, nil]. *)
Definition getStrongHash (b : t) : Go bytes := ret [].

End BlindIndexStrong.

(** ** A reference implementation of the encoding interface

    A decoder for padded base64 text without line breaks and a JSON encoder
    that only adds the quotes.  They are not the decoders of the Go library;
    they show that the interface and its laws can be met. *)

Module RefEncoding.

(** The position of a character in the alphabet. *)
Fixpoint find_index (c : ascii) (alphabet : list ascii) (i : N) : option N :=
  match alphabet with
  | [] => None
  | x :: rest => if Ascii.eqb c x then Some i else find_index c rest (i + 1)
  end.

Definition dec6 (c : byte) : option N :=
  find_index (ascii_of_byte c) (list_ascii_of_string encodeURL) 0.

Definition is_pad (c : byte) : bool := Byte.eqb c (byte_of_ascii padChar).

Definition byte_of (n : N) : byte := default x00 (Byte.of_N (n mod 256)).

Definition isnil (l : bytes) : bool := match l with [] => true | _ => false end.

(** [si] is the offset of [src] in the whole input. *)
Fixpoint decode (src : bytes) (si : nat) : bytes * option nat :=
  match src with
  | [] => ([], None)
  | c0 :: c1 :: c2 :: c3 :: rest =>
      match dec6 c0, dec6 c1 with
      | Some i0, Some i1 =>
          match dec6 c2 with
          | Some i2 =>
              match dec6 c3 with
              | Some i3 =>
                  let '(out, err) := decode rest (si + 4) in
                  (byte_of (i0 * 4 + i1 / 16) :: byte_of (i1 * 16 + i2 / 4)
                     :: byte_of (i2 * 64 + i3) :: out, err)
              | None =>
                  if is_pad c3 && isnil rest
                  then ([byte_of (i0 * 4 + i1 / 16); byte_of (i1 * 16 + i2 / 4)], None)
                  else ([], Some (si + 3))
              end
          | None =>
              if is_pad c2 && is_pad c3 && isnil rest
              then ([byte_of (i0 * 4 + i1 / 16)], None)
              else ([], Some (si + 2))
          end
      | _, _ => ([], Some si)
      end
  | _ => ([], Some (si + length src))
  end.

Definition marshal (s : string) : bytes := quote :: list_byte_of_string s ++ [quote].

Definition lib : EncodingLib :=
  {| base64_Decode := fun src => decode src 0; json_Marshal_string := marshal |}.

End RefEncoding.

(** ** Vocabulary of the statements *)

(** [name] is registered with the bytes [key]. *)
Definition has_key (name : string) (key : bytes) (w : World) : Prop :=
  encryptionKeys w !! name = Some key.

(** The registry holds a key that [aes.NewCipher] accepts under "encrypt". *)
Definition valid_encrypt_key (key : bytes) (w : World) : Prop :=
  has_key "encrypt" key w /\ aes_key_size_ok (length key) = true.

(** The computation [c] leaves the component [f] of the world as it was. *)
Definition keeps {A X : Type} (f : World -> X) (c : Go A) : Prop :=
  forall w, f (snd (c w)) = f w.

(** The computation [c] never panics. *)
Definition never_panics {S A : Type} (c : S -> res A * S) : Prop :=
  forall s p, fst (c s) <> Panic p.

(** What [UnmarshalJSON] decodes: the input without its first and last byte. *)
Definition payload (b64 : bytes) : bytes := take (length b64 - 2) (drop 1 b64).

(** ** Concrete worlds used in examples *)

(** The key the package's tests register (32 bytes). *)
Definition test_key : bytes :=
  list_byte_of_string "Y53DIiG6XX7eguA0SOzK7p6EPV7wfRNe".

Definition test_entropy : bytes :=
  list_byte_of_string "0123456789abcdefghijklmnopqrstuv".

Definition empty_world : World := mkWorld ∅ test_entropy [].

Definition test_world : World :=
  mkWorld {[ "encrypt"%string := test_key ]} test_entropy [].

(** A world with a blind-index key registered. *)
Definition index_world : World :=
  mkWorld {[ "blindIndex"%string := list_byte_of_string "0123456789abcdef" ]}
    test_entropy [].

(** What [Encrypt] makes of "Hello World" in [test_world] under the
    reference library, and the world it leaves. *)
Definition test_ct : bytes :=
  match fst (EncryptedString.Encrypt (L := RefLib.lib) "Hello World" test_world) with
  | Ok ct => ct
  | _ => []
  end.

Definition test_world1 : World :=
  snd (EncryptedString.Encrypt (L := RefLib.lib) "Hello World" test_world).

(** A second [Encrypt] of the same plaintext, in the world the first left. *)
Definition test_ct2 : bytes :=
  match fst (EncryptedString.Encrypt (L := RefLib.lib) "Hello World" test_world1) with
  | Ok ct => ct
  | _ => []
  end.

Definition test_world2 : World :=
  snd (EncryptedString.Encrypt (L := RefLib.lib) "Hello World" test_world1).

(** What [MarshalJSON] makes of "Hello World" in [test_world] under the
    reference libraries. *)
Definition test_json : bytes :=
  match fst (EncryptedString.MarshalJSON (L := RefLib.lib) (E := RefEncoding.lib)
               "Hello World" test_world) with
  | Ok js => js
  | _ => []
  end.

(** ** Theorems *)

Lemma AddKey_fresh name key w :
  encryptionKeys w !! name = None ->
  AddKey name key w = (Ok tt, set_keys (<[name := key]> (encryptionKeys w)) w).
Proof. intros H. unfold AddKey, bind, gets. simpl. by rewrite H. Qed.

Lemma AddKey_taken name key old w :
  encryptionKeys w !! name = Some old ->
  AddKey name key w = (Err ErrKeyAlreadyExists, w).
Proof. intros H. unfold AddKey, bind, gets. simpl. by rewrite H. Qed.


(** *** Running the library calls *)

Section LibraryFacts.
Context {L : CryptoLib}.

Lemma map_index_run name w :
  map_index name w = (Ok (default [] (encryptionKeys w !! name)), w).
Proof. reflexivity. Qed.

Lemma aes_NewCipher_ok key w :
  aes_key_size_ok (length key) = true ->
  aes_NewCipher key w = (Ok (mkBlock key), log (EvNewCipher key) w).
Proof. intros H. unfold aes_NewCipher, bind, modify. by rewrite H. Qed.

Lemma aes_NewCipher_bad key w :
  aes_key_size_ok (length key) = false ->
  aes_NewCipher key w = (Err (KeySizeError (length key)), log (EvNewCipher key) w).
Proof. intros H. unfold aes_NewCipher, bind, modify. by rewrite H. Qed.

Lemma io_ReadFull_rand_ok n w :
  n <= length (randReader w) ->
  io_ReadFull_rand n w =
    (Ok (take n (randReader w)),
     set_rand (drop n (randReader w)) (log (EvRandRead n) w)).
Proof. intros H. unfold io_ReadFull_rand. by rewrite decide_True. Qed.

Lemma Seal_run aesgcm nonce plaintext w :
  length nonce = gcmStandardNonceSize ->
  Seal aesgcm nonce plaintext w =
    (Ok (gcm_seal (aead_key aesgcm) nonce plaintext),
     log (EvSeal nonce plaintext) w).
Proof. intros H. unfold Seal, bind, modify. by rewrite decide_True. Qed.

Lemma Open_run aesgcm nonce sealed w :
  length nonce = gcmStandardNonceSize ->
  Open aesgcm nonce sealed w =
    (match gcm_open (aead_key aesgcm) nonce sealed with
     | Some plaintext => Ok plaintext
     | None => Err errOpen
     end, log (EvOpen nonce sealed) w).
Proof.
  intros H. unfold Open, bind, modify. rewrite decide_True by done.
  by destruct (gcm_open _ _ _).
Qed.

End LibraryFacts.

Lemma slice_run {S} (s : bytes) lo hi (st : S) :
  lo <= hi <= length s ->
  slice s lo hi st = (Ok (take (hi - lo) (drop lo s)), st).
Proof. intros H. unfold slice. by rewrite decide_True. Qed.

Lemma index_run {S} (s : bytes) i b (st : S) :
  s !! i = Some b -> index s i st = (Ok b, st).
Proof. intros H. unfold index. by rewrite H. Qed.

(** *** What [Encrypt] and [Decrypt] compute *)

Section Codec.
Context {L : CryptoLib}.
Import EncryptedString.

(** The world after a successful [Encrypt]. *)
Lemma Encrypt_run (e : t) key w :
  valid_encrypt_key key w ->
  blockSize <= length (randReader w) ->
  Encrypt e w =
    (Ok (encryptionVersion :: take blockSize (randReader w)
           ++ gcm_seal key (take blockSize (randReader w)) (list_byte_of_string e)),
     mkWorld (encryptionKeys w) (drop blockSize (randReader w))
       (trace w ++ [EvNewCipher key; EvRandRead blockSize; EvNewGCM;
                    EvSeal (take blockSize (randReader w)) (list_byte_of_string e)])).
Proof.
  intros [Hk Hsz] Hr. unfold Encrypt.
  unfold bind at 1. rewrite map_index_run, Hk. simpl default.
  unfold bind at 1. rewrite aes_NewCipher_ok by done.
  unfold bind at 1. rewrite io_ReadFull_rand_ok by done.
  unfold bind at 1. unfold cipher_NewGCM, bind at 1, modify, ret.
  unfold bind at 1. rewrite Seal_run.
  2:{ rewrite length_take. unfold gcmStandardNonceSize, blockSize in *.
      cbn [randReader log]. lia. }
  simpl. unfold log, set_rand. simpl. repeat rewrite <- app_assoc. done.
Qed.

(** Without an acceptable key [Encrypt] stops at [aes.NewCipher]. *)
Lemma Encrypt_bad_key (e : t) w :
  let key := default [] (encryptionKeys w !! "encrypt") in
  aes_key_size_ok (length key) = false ->
  Encrypt e w = (Err (KeySizeError (length key)), log (EvNewCipher key) w).
Proof.
  intros key Hsz. unfold Encrypt.
  unfold bind at 1. rewrite map_index_run. fold key.
  unfold bind at 1. by rewrite aes_NewCipher_bad.
Qed.

Lemma Decrypt_bad_key (e : t) ciphertext w :
  let key := default [] (encryptionKeys w !! "encrypt") in
  aes_key_size_ok (length key) = false ->
  Decrypt e ciphertext w =
    (Err (KeySizeError (length key)), log (EvNewCipher key) w).
Proof.
  intros key Hsz. unfold Decrypt.
  unfold bind at 1. rewrite map_index_run. fold key.
  unfold bind at 1. by rewrite aes_NewCipher_bad.
Qed.

(** [Decrypt] up to its first look at the ciphertext. *)
Lemma Decrypt_prefix (e : t) ciphertext key w :
  valid_encrypt_key key w ->
  Decrypt e ciphertext w =
    (version <- index ciphertext 0 ;;
     if negb (Byte.eqb version encryptionVersion) then
       fmt_Println "Encryption versions don't match" ;;;
       throw ErrVersionMismatch
     else if length ciphertext <? blockSize + 1 then
       throw ErrShortCipher
     else
       nonce <- slice ciphertext 1 (blockSize + 1) ;;
       aesgcm <- cipher_NewGCM (mkBlock key) ;;
       ciphertext <- slice ciphertext (blockSize + 1) (length ciphertext) ;;
       plaintext <- Open aesgcm nonce ciphertext ;;
       ret (string_of_list_byte plaintext)) (log (EvNewCipher key) w).
Proof.
  intros [Hk Hsz]. unfold Decrypt.
  unfold bind at 1. rewrite map_index_run, Hk. simpl default.
  unfold bind at 1. by rewrite aes_NewCipher_ok.
Qed.

Lemma Decrypt_empty (e : t) key w :
  valid_encrypt_key key w ->
  Decrypt e [] w = (Panic (IndexOutOfRange 0 0), log (EvNewCipher key) w).
Proof. intros Hv. by rewrite (Decrypt_prefix _ _ key). Qed.

Lemma Decrypt_version (e : t) version rest key w :
  valid_encrypt_key key w ->
  version <> encryptionVersion ->
  Decrypt e (version :: rest) w =
    (Err ErrVersionMismatch,
     log (EvPrintln "Encryption versions don't match") (log (EvNewCipher key) w)).
Proof.
  intros Hv Hne. rewrite (Decrypt_prefix _ _ key) by done.
  unfold bind at 1. rewrite (index_run _ 0 version) by done.
  destruct (Byte.eqb version encryptionVersion) eqn:E.
  - by apply byte_dec_bl in E.
  - done.
Qed.

Lemma Decrypt_short (e : t) rest key w :
  valid_encrypt_key key w ->
  length rest < blockSize ->
  Decrypt e (encryptionVersion :: rest) w =
    (Err ErrShortCipher, log (EvNewCipher key) w).
Proof.
  intros Hv Hlen. rewrite (Decrypt_prefix _ _ key) by done.
  unfold bind at 1. rewrite (index_run _ 0 encryptionVersion) by done.
  change (negb (Byte.eqb encryptionVersion encryptionVersion)) with false.
  cbv iota.
  replace (length (encryptionVersion :: rest) <? blockSize + 1) with true; [done|].
  symmetry. apply Nat.ltb_lt. simpl. unfold blockSize in *. lia.
Qed.

Lemma Decrypt_long (e : t) rest key w :
  valid_encrypt_key key w ->
  blockSize <= length rest ->
  Decrypt e (encryptionVersion :: rest) w =
    (match gcm_open key (take blockSize rest) (drop blockSize rest) with
     | Some plaintext => Ok (string_of_list_byte plaintext)
     | None => Err errOpen
     end,
     mkWorld (encryptionKeys w) (randReader w)
       (trace w ++ [EvNewCipher key; EvNewGCM;
                    EvOpen (take blockSize rest) (drop blockSize rest)])).
Proof.
  intros Hv Hlen. rewrite (Decrypt_prefix _ _ key) by done.
  unfold bind at 1. rewrite (index_run _ 0 encryptionVersion) by done.
  change (negb (Byte.eqb encryptionVersion encryptionVersion)) with false.
  cbv iota.
  replace (length (encryptionVersion :: rest) <? blockSize + 1) with false.
  2:{ symmetry. apply Nat.ltb_ge. simpl. unfold blockSize in *. lia. }
  unfold bind at 1. rewrite slice_run.
  2:{ simpl. unfold blockSize in *. lia. }
  unfold bind at 1. unfold cipher_NewGCM, bind at 1, modify, ret.
  unfold bind at 1. rewrite slice_run.
  2:{ simpl. unfold blockSize in *. lia. }
  replace (take (blockSize + 1 - 1) (drop 1 (encryptionVersion :: rest)))
    with (take blockSize rest) by (by unfold blockSize).
  replace (take (length (encryptionVersion :: rest) - (blockSize + 1))
             (drop (blockSize + 1) (encryptionVersion :: rest)))
    with (drop blockSize rest).
  2:{ unfold blockSize. simpl drop. rewrite take_ge; [done|].
      rewrite length_drop. simpl. lia. }
  unfold bind at 1. rewrite Open_run.
  2:{ rewrite length_take. unfold gcmStandardNonceSize, blockSize in *. lia. }
  simpl aead_key. unfold log. simpl. repeat rewrite <- app_assoc. simpl.
  by destruct (gcm_open _ _ _).
Qed.

End Codec.

(** *** The reference implementation meets the interface's laws *)

Section RefLibFacts.
Import RefLib.

Lemma to_N_inj a b : Byte.to_N a = Byte.to_N b -> a = b.
Proof.
  intros H. apply (f_equal Byte.of_N) in H.
  rewrite !Byte.of_to_N in H. congruence.
Qed.

Lemma to_N_lt a : (Byte.to_N a < 256)%N.
Proof. pose proof (Byte.to_N_bounded a). lia. Qed.

Lemma to_N_byte_of_N n : Byte.to_N (byte_of_N n) = (n mod 256)%N.
Proof.
  unfold byte_of_N. destruct (Byte.of_N (n mod 256)) as [b|] eqn:E.
  - by apply Byte.to_of_N in E.
  - apply Byte.of_N_None_iff in E.
    pose proof (N.mod_upper_bound n 256). lia.
Qed.

Lemma bsub_badd m p : bsub (badd m p) m = p.
Proof.
  apply to_N_inj. unfold bsub, badd. rewrite !to_N_byte_of_N.
  pose proof (to_N_lt m). pose proof (to_N_lt p).
  set (x := Byte.to_N m) in *. set (y := Byte.to_N p) in *.
  destruct (decide (x + y < 256)%N).
  - rewrite (N.mod_small (x + y)) by done.
    replace (x + y + 256 - x)%N with (y + 1 * 256)%N by lia.
    rewrite N.Div0.mod_add. by apply N.mod_small.
  - replace ((x + y) mod 256)%N with (x + y - 256)%N.
    2:{ symmetry. replace (x + y)%N with ((x + y - 256) + 1 * 256)%N at 1 by lia.
        rewrite N.Div0.mod_add. apply N.mod_small. lia. }
    replace (x + y - 256 + 256 - x)%N with y by lia.
    by apply N.mod_small.
Qed.

Lemma badd_comm a b : badd a b = badd b a.
Proof. unfold badd. by rewrite N.add_comm. Qed.

Lemma badd_cancel_l a b c : badd a b = badd a c -> b = c.
Proof. intros H. rewrite <- (bsub_badd a b), H. apply bsub_badd. Qed.

Lemma badd_cancel_r a b c : badd a c = badd b c -> a = b.
Proof. rewrite !(badd_comm _ c). apply badd_cancel_l. Qed.

Lemma bsum_alter_neq (f : byte -> byte) q l :
  (forall b, f b <> b) -> q < length l -> bsum (alter f q l) <> bsum l.
Proof.
  intros Hf. revert q. induction l as [|x l IH]; intros q Hq; simpl in Hq; [lia|].
  destruct q as [|q]; simpl.
  - intros H. apply badd_cancel_r in H. by apply Hf in H.
  - intros H. apply badd_cancel_l in H. revert H. apply IH. lia.
Qed.

Lemma alter_neq {A} (f : A -> A) q (l : list A) :
  (forall b, f b <> b) -> q < length l -> alter f q l <> l.
Proof.
  intros Hf. revert q. induction l as [|x l IH]; intros q Hq; simpl in Hq; [lia|].
  destruct q as [|q]; simpl.
  - intros H. injection H as H. by apply Hf in H.
  - intros H. injection H as H. revert H. apply IH. lia.
Qed.

Lemma seal_length key nonce plaintext :
  length (seal key nonce plaintext) = length plaintext + gcmTagSize.
Proof.
  unfold seal, tag. by rewrite length_app, length_map.
Qed.

Lemma open_split key nonce body tg :
  length tg = gcmTagSize ->
  open key nonce (body ++ tg) =
    if decide (tg = tag key nonce body)
    then Some (map (fun b => bsub b (pad key nonce)) body)
    else None.
Proof.
  intros Ht. unfold open. rewrite length_app, Ht.
  replace (length body + gcmTagSize <? gcmTagSize) with false.
  2:{ symmetry. apply Nat.ltb_ge. lia. }
  replace (length body + gcmTagSize - gcmTagSize) with (length body) by lia.
  by rewrite take_app_length, drop_app_length.
Qed.

Lemma tag_length key nonce body : length (tag key nonce body) = gcmTagSize.
Proof. done. Qed.

Lemma open_seal key nonce plaintext :
  open key nonce (seal key nonce plaintext) = Some plaintext.
Proof.
  unfold seal. rewrite open_split by apply tag_length.
  rewrite decide_True by done. f_equal.
  rewrite map_map. rewrite <- (map_id plaintext) at 2.
  apply map_ext. intros b. apply bsub_badd.
Qed.

End RefLibFacts.

#[global] Instance RefLib_laws : CryptoLaws RefLib.lib.
Proof.
  split.
  - intros. apply open_seal.
  - intros. apply seal_length.
  - intros. apply length_replicate.
Qed.

Lemma flip_bit_byte_neq j b : j < 8 -> flip_bit_byte j b <> b.
Proof.
  intros Hj.
  do 8 (destruct j as [|j]; [destruct b; vm_compute; discriminate|]).
  lia.
Qed.

Lemma RefLib_rejects_bit_flips key : rejects_bit_flips RefLib.lib key.
Proof.
  intros nonce plaintext i _ Hi.
  change (gcm_seal key nonce plaintext) with (RefLib.seal key nonce plaintext) in *.
  change (gcm_open key nonce) with (RefLib.open key nonce).
  unfold RefLib.seal in *.
  set (body := map (RefLib.badd (RefLib.pad key nonce)) plaintext) in *.
  assert (Hflip : forall b, flip_bit_byte (i mod 8) b <> b).
  { intros b. apply flip_bit_byte_neq. apply Nat.mod_upper_bound. lia. }
  assert (Hq : i / 8 < length (body ++ RefLib.tag key nonce body)).
  { apply Nat.Div0.div_lt_upper_bound. lia. }
  rewrite length_app, tag_length in Hq.
  unfold flip_bit. destruct (decide (i / 8 < length body)) as [Hlt|Hge].
  - rewrite alter_app_l by done.
    rewrite open_split by apply tag_length.
    rewrite decide_False; [done|].
    unfold RefLib.tag. intros H. injection H as H.
    apply badd_cancel_l in H. symmetry in H. revert H.
    by apply bsum_alter_neq.
  - rewrite alter_app_r_alt by lia.
    rewrite open_split by (by rewrite length_alter).
    rewrite decide_False; [done|].
    apply alter_neq; [done|]. rewrite tag_length. lia.
Qed.

(** *** The shape of what [Encrypt] produces *)

Section EncryptFacts.
Context {L : CryptoLib}.
Import EncryptedString.

Lemma io_ReadFull_rand_short n w :
  ~ n <= length (randReader w) ->
  exists err, io_ReadFull_rand n w = (Err err, set_rand [] (log (EvRandRead n) w)).
Proof. intros H. unfold io_ReadFull_rand. rewrite decide_False by done. eauto. Qed.

(** With too little entropy left [Encrypt] fails: it never seals under a
    short or constant nonce. *)
Lemma Encrypt_no_entropy (e : t) key w :
  valid_encrypt_key key w ->
  ~ blockSize <= length (randReader w) ->
  exists err w', Encrypt e w = (Err err, w').
Proof.
  intros [Hk Hsz] Hr. unfold Encrypt.
  unfold bind at 1. rewrite map_index_run, Hk. simpl default.
  unfold bind at 1. rewrite aes_NewCipher_ok by done.
  unfold bind at 1.
  destruct (io_ReadFull_rand_short blockSize (log (EvNewCipher key) w)) as [err ->];
    [done|]. eauto.
Qed.

Lemma valid_key_cases w :
  (exists key, valid_encrypt_key key w) \/
  aes_key_size_ok (length (default [] (encryptionKeys w !! "encrypt"))) = false.
Proof.
  destruct (aes_key_size_ok (length (default [] (encryptionKeys w !! "encrypt"))))
    eqn:E; [left|by right].
  destruct (encryptionKeys w !! "encrypt") as [key|] eqn:Hk; [|done].
  exists key. by split.
Qed.

Lemma Encrypt_Ok_inv (e : t) w ct w1 :
  Encrypt e w = (Ok ct, w1) ->
  exists key nonce,
    valid_encrypt_key key w /\
    length nonce = blockSize /\
    ct = encryptionVersion :: nonce ++ gcm_seal key nonce (list_byte_of_string e) /\
    encryptionKeys w1 = encryptionKeys w.
Proof.
  intros H. destruct (valid_key_cases w) as [[key Hv]|Hbad].
  2:{ rewrite Encrypt_bad_key in H by done. discriminate. }
  destruct (decide (blockSize <= length (randReader w))) as [Hr|Hr].
  2:{ destruct (Encrypt_no_entropy e key w Hv Hr) as (err & w' & E).
      rewrite E in H. discriminate. }
  rewrite (Encrypt_run e key) in H by done. injection H as <- <-.
  exists key, (take blockSize (randReader w)). split_and!; try done.
  rewrite length_take. lia.
Qed.

(** A world whose registry holds the same "encrypt" entry. *)
Lemma valid_encrypt_key_same key w w' :
  encryptionKeys w' !! "encrypt" = encryptionKeys w !! "encrypt" ->
  valid_encrypt_key key w -> valid_encrypt_key key w'.
Proof. intros E [Hk Hsz]. split; [|done]. unfold has_key in *. congruence. Qed.

End EncryptFacts.

(** *** Round trip *)

Section RoundTrip.
Context {L : CryptoLib} {HL : CryptoLaws L}.
Import EncryptedString.

(** [Decrypt] on a well-formed ciphertext sealed under the registered key. *)
Lemma Decrypt_sealed (e : t) key nonce plaintext w :
  valid_encrypt_key key w ->
  length nonce = blockSize ->
  fst (Decrypt e (encryptionVersion :: nonce ++ gcm_seal key nonce plaintext) w)
    = Ok (string_of_list_byte plaintext).
Proof.
  intros Hv Hn. rewrite (Decrypt_long e _ key) by (by rewrite ?length_app; try lia).
  rewrite <- Hn, take_app_length, drop_app_length. simpl.
  rewrite gcm_open_seal; [done|apply Hv|by rewrite Hn].
Qed.

(** Whatever [Encrypt] returned decrypts to the plaintext, in any world
    that still has the same key registered. *)
Lemma Decrypt_Encrypt (P e : t) w ct w1 w2 :
  Encrypt P w = (Ok ct, w1) ->
  encryptionKeys w2 !! "encrypt" = encryptionKeys w !! "encrypt" ->
  fst (Decrypt e ct w2) = Ok P.
Proof.
  intros HE Hsame.
  destruct (Encrypt_Ok_inv _ _ _ _ HE) as (key & nonce & Hv & Hn & -> & _).
  rewrite (Decrypt_sealed e key) by eauto using valid_encrypt_key_same.
  by rewrite string_of_list_byte_of_string.
Qed.

End RoundTrip.

(** C1. For every plaintext [P] (the empty string and long strings
    included), with a key that AES accepts registered under "encrypt" and
    twelve bytes of entropy at hand, [Encrypt] returns a ciphertext and
    [Decrypt] of that ciphertext returns [P], in the world [Encrypt] left
    and in any other world with the same key registered. *)
Theorem C1_decrypt_encrypt_roundtrip (L : CryptoLib) (HL : CryptoLaws L)
    (P e : EncryptedString.t) (key : bytes) (w : World) :
  valid_encrypt_key key w ->
  blockSize <= length (randReader w) ->
  exists ct w1,
    EncryptedString.Encrypt P w = (Ok ct, w1) /\
    fst (EncryptedString.Decrypt e ct w1) = Ok P /\
    forall w2,
      encryptionKeys w2 !! "encrypt" = encryptionKeys w !! "encrypt" ->
      fst (EncryptedString.Decrypt e ct w2) = Ok P.
Proof.
  intros Hv Hr. eexists _, _. split; [by apply (@Encrypt_run L P key w)|].
  split.
  - eapply Decrypt_Encrypt; [by apply (@Encrypt_run L P key w)|done].
  - intros w2 Hsame. eapply Decrypt_Encrypt; [|done].
    by apply (@Encrypt_run L P key w).
Qed.

Lemma C1_witness :
  valid_encrypt_key test_key test_world /\
  blockSize <= length (randReader test_world) /\
  exists ct w1,
    EncryptedString.Encrypt (L := RefLib.lib) "Hello World" test_world = (Ok ct, w1) /\
    fst (EncryptedString.Decrypt (L := RefLib.lib) "" ct w1) = Ok "Hello World"%string /\
    forall w2,
      encryptionKeys w2 !! "encrypt"%string = encryptionKeys test_world !! "encrypt"%string ->
      fst (EncryptedString.Decrypt (L := RefLib.lib) "" ct w2) = Ok "Hello World"%string.
Proof.
  assert (Hv : valid_encrypt_key test_key test_world) by (split; reflexivity).
  assert (Hr : blockSize <= length (randReader test_world)) by (vm_compute; lia).
  split; [exact Hv|]. split; [exact Hr|].
  exact (C1_decrypt_encrypt_roundtrip RefLib.lib RefLib_laws
           "Hello World" "" test_key test_world Hv Hr).
Defined.

(** The empty string takes the same road: a 29-byte ciphertext (version,
    nonce, tag) that decrypts to the empty string, as the package's test
    [TestEncryptDecryptEmptyString] expects. *)
Example roundtrip_empty_string :
  exists ct w1,
    EncryptedString.Encrypt (L := RefLib.lib) "" test_world = (Ok ct, w1) /\
    length ct = 29 /\
    fst (EncryptedString.Decrypt (L := RefLib.lib) "" ct w1) = Ok ""%string.
Proof. eexists _, _. split; [vm_compute; reflexivity|]. split; reflexivity. Qed.

(** *** Malformed ciphertexts *)

Section Malformed.
Context {L : CryptoLib}.
Import EncryptedString.

Lemma Decrypt_truncated (e : t) key nonce sealed n w :
  valid_encrypt_key key w ->
  1 <= n < blockSize + 1 ->
  fst (Decrypt e (take n (encryptionVersion :: nonce ++ sealed)) w)
    = Err ErrShortCipher.
Proof.
  intros Hv [Hn1 Hn2]. destruct n as [|m]; [lia|]. simpl take.
  rewrite (Decrypt_short e _ key); [done|done|].
  rewrite length_take. lia.
Qed.

Lemma Decrypt_replaced_version (e : t) key version ct w :
  valid_encrypt_key key w ->
  ct <> [] ->
  version <> encryptionVersion ->
  fst (Decrypt e (<[0 := version]> ct) w) = Err ErrVersionMismatch.
Proof.
  intros Hv Hne Hver. destruct ct as [|b rest]; [done|]. simpl.
  by rewrite (Decrypt_version e version rest key).
Qed.

End Malformed.

(** C4. The code breaks the claim at length 0.  For every ciphertext
    [Encrypt] produced and every length [n] below 13, [Decrypt] of its first
    [n] bytes fails with [ErrShortCipher] when [n] is at least 1, and panics
    when [n] is 0: [ciphertext[0]] (line 132) is read before the length
    check (line 141) is reached. *)
Theorem C4_truncation_panics_at_length_zero (L : CryptoLib)
    (P e : EncryptedString.t) (w w1 w2 : World) (ct : bytes) (n : nat) :
  EncryptedString.Encrypt P w = (Ok ct, w1) ->
  encryptionKeys w2 !! "encrypt" = encryptionKeys w !! "encrypt" ->
  n < blockSize + 1 ->
  fst (EncryptedString.Decrypt e (take n ct) w2) =
    match n with
    | 0 => Panic (IndexOutOfRange 0 0)
    | S _ => Err ErrShortCipher
    end.
Proof.
  intros HE Hsame Hn.
  destruct (Encrypt_Ok_inv _ _ _ _ HE) as (key & nonce & Hv & _ & -> & _).
  pose proof (valid_encrypt_key_same key w w2 Hsame Hv) as Hv2.
  destruct n as [|m].
  - by rewrite take_0, (Decrypt_empty e key).
  - apply (Decrypt_truncated e key); [done|lia].
Qed.

(** C5. For every ciphertext [Encrypt] produced, replacing byte 0 by any
    value other than the supported version makes [Decrypt] fail with
    [ErrVersionMismatch]. *)
Theorem C5_replaced_version_byte (L : CryptoLib)
    (P e : EncryptedString.t) (w w1 w2 : World) (ct : bytes) (version : byte) :
  EncryptedString.Encrypt P w = (Ok ct, w1) ->
  encryptionKeys w2 !! "encrypt" = encryptionKeys w !! "encrypt" ->
  version <> encryptionVersion ->
  fst (EncryptedString.Decrypt e (<[0 := version]> ct) w2) = Err ErrVersionMismatch.
Proof.
  intros HE Hsame Hver.
  destruct (Encrypt_Ok_inv _ _ _ _ HE) as (key & nonce & Hv & _ & -> & _).
  apply (Decrypt_replaced_version e key); [|done|done].
  by apply (valid_encrypt_key_same key w).
Qed.

Lemma test_ct_produced :
  EncryptedString.Encrypt (L := RefLib.lib) "Hello World" test_world
    = (Ok test_ct, test_world1).
Proof. vm_compute. reflexivity. Qed.

(** The failing input: a ciphertext of [Encrypt] cut to no bytes. *)
Lemma C4_witness :
  EncryptedString.Encrypt (L := RefLib.lib) "Hello World" test_world
    = (Ok test_ct, test_world1) /\
  0 < blockSize + 1 /\
  fst (EncryptedString.Decrypt (L := RefLib.lib) "" (take 0 test_ct) test_world1)
    = Panic (IndexOutOfRange 0 0).
Proof.
  assert (HE : EncryptedString.Encrypt (L := RefLib.lib) "Hello World" test_world
                 = (Ok test_ct, test_world1)) by (vm_compute; reflexivity).
  assert (Hn : 0 < blockSize + 1) by (vm_compute; lia).
  split; [exact HE|]. split; [exact Hn|].
  exact (C4_truncation_panics_at_length_zero RefLib.lib "Hello World" ""
           test_world test_world1 test_world1 test_ct 0 HE eq_refl Hn).
Defined.

Lemma C5_witness :
  EncryptedString.Encrypt (L := RefLib.lib) "Hello World" test_world
    = (Ok test_ct, test_world1) /\
  x01 <> encryptionVersion /\
  fst (EncryptedString.Decrypt (L := RefLib.lib) "" (<[0 := x01]> test_ct) test_world1)
    = Err ErrVersionMismatch.
Proof.
  assert (HE : EncryptedString.Encrypt (L := RefLib.lib) "Hello World" test_world
                 = (Ok test_ct, test_world1)) by (vm_compute; reflexivity).
  assert (Hv : x01 <> encryptionVersion) by discriminate.
  split; [exact HE|]. split; [exact Hv|].
  exact (C5_replaced_version_byte RefLib.lib "Hello World" ""
           test_world test_world1 test_world1 test_ct x01 HE eq_refl Hv).
Defined.

(** *** Tampering *)

Section Tamper.
Context {L : CryptoLib}.
Import EncryptedString.

(** The nonce and the sealed data [Decrypt] hands to [Open]. *)
Lemma Decrypt_rejected (e : t) key ct w :
  valid_encrypt_key key w ->
  ct !! 0 = Some encryptionVersion ->
  blockSize + 1 <= length ct ->
  gcm_open key (take blockSize (drop 1 ct)) (drop (blockSize + 1) ct) = None ->
  fst (Decrypt e ct w) = Err errOpen.
Proof.
  intros Hv H0 Hlen Hopen. destruct ct as [|b rest]; [done|].
  injection H0 as ->. cbn [length] in Hlen.
  rewrite (Decrypt_long e rest key) by (done || lia).
  replace (blockSize + 1) with (S blockSize) in Hopen by lia.
  cbn [drop] in Hopen. rewrite drop_0 in Hopen. by rewrite Hopen.
Qed.

Lemma flip_bit_sealed nonce sealed i :
  length nonce = blockSize ->
  8 * (blockSize + 1) <= i ->
  flip_bit i (encryptionVersion :: nonce ++ sealed)
    = encryptionVersion :: nonce ++ flip_bit (i - 8 * (blockSize + 1)) sealed.
Proof.
  intros Hn Hi. unfold flip_bit.
  assert (Hq : i / 8 = S (length nonce + (i - 8 * (blockSize + 1)) / 8)).
  { rewrite Hn. replace i with ((i - 8 * (blockSize + 1)) + (blockSize + 1) * 8) at 1 by lia.
    rewrite Nat.div_add by lia. lia. }
  assert (Hr : i mod 8 = (i - 8 * (blockSize + 1)) mod 8).
  { replace i with ((i - 8 * (blockSize + 1)) + (blockSize + 1) * 8) at 1 by lia.
    by rewrite Nat.Div0.mod_add. }
  rewrite Hq, Hr.
  change (alter ?f (S ?n) (?x :: ?l)) with (x :: alter f n l).
  by rewrite alter_app_r.
Qed.

End Tamper.

(** C6. With a key that AES accepts registered and an AEAD that rejects
    every sealed message with one bit flipped, flipping any single bit of
    the sealed-data region (byte 13 to the end) of a ciphertext that
    [Encrypt] produced makes [Decrypt] fail with the AEAD's authentication
    error; and whatever makes [Open] reject the nonce and sealed data under
    the registered key (another key at sealing, corrupted bytes, a tampered
    tag, another nonce), [Decrypt] fails with that same single error. *)
Theorem C6_tamper_detection (L : CryptoLib) (key : bytes)
    (e : EncryptedString.t) (w2 : World) :
  valid_encrypt_key key w2 ->
  (rejects_bit_flips L key ->
   forall (P : EncryptedString.t) (w w1 : World) (ct : bytes) (i : nat),
     has_key "encrypt" key w ->
     EncryptedString.Encrypt P w = (Ok ct, w1) ->
     8 * (blockSize + 1) <= i < 8 * length ct ->
     fst (EncryptedString.Decrypt e (flip_bit i ct) w2) = Err errOpen) /\
  (forall ct : bytes,
     ct !! 0 = Some encryptionVersion ->
     blockSize + 1 <= length ct ->
     gcm_open key (take blockSize (drop 1 ct)) (drop (blockSize + 1) ct) = None ->
     fst (EncryptedString.Decrypt e ct w2) = Err errOpen).
Proof.
  intros Hv. split.
  - intros Hrej P w w1 ct i Hk HE [Hi1 Hi2].
    destruct (Encrypt_Ok_inv _ _ _ _ HE) as (key' & nonce & [Hk' _] & Hn & -> & _).
    assert (key' = key) as -> by (unfold has_key in *; congruence).
    rewrite flip_bit_sealed by done.
    apply (Decrypt_rejected e key); [done|done|..].
    + cbn [length]. rewrite length_app, Hn. lia.
    + replace (blockSize + 1) with (S blockSize) by lia. cbn [drop].
      rewrite drop_0. rewrite <- Hn at 1 3.
      rewrite take_app_length, drop_app_length.
      apply Hrej; [by rewrite Hn|].
      cbn [length] in Hi2. rewrite length_app, Hn in Hi2.
      unfold blockSize in *. lia.
  - intros ct H0 Hlen Hopen. by apply (Decrypt_rejected e key).
Qed.

Lemma C6_witness :
  valid_encrypt_key test_key test_world1 /\
  rejects_bit_flips RefLib.lib test_key /\
  8 * (blockSize + 1) <= 110 < 8 * length test_ct /\
  fst (EncryptedString.Decrypt (L := RefLib.lib) "" (flip_bit 110 test_ct) test_world1)
    = Err errOpen /\
  fst (EncryptedString.Decrypt (L := RefLib.lib) "" (<[1 := x00]> test_ct) test_world1)
    = Err errOpen.
Proof.
  assert (Hv : valid_encrypt_key test_key test_world1) by (split; reflexivity).
  assert (Hk : has_key "encrypt" test_key test_world) by reflexivity.
  assert (HE : EncryptedString.Encrypt (L := RefLib.lib) "Hello World" test_world
                 = (Ok test_ct, test_world1)) by (vm_compute; reflexivity).
  assert (Hi : 8 * (blockSize + 1) <= 110 < 8 * length test_ct) by (vm_compute; lia).
  destruct (C6_tamper_detection RefLib.lib test_key "" test_world1 Hv) as [Hflip Hany].
  split; [exact Hv|]. split; [exact (RefLib_rejects_bit_flips test_key)|].
  split; [exact Hi|]. split.
  - exact (Hflip (RefLib_rejects_bit_flips test_key) "Hello World"
             test_world test_world1 test_ct 110 Hk HE Hi).
  - apply Hany; [reflexivity|vm_compute; lia|vm_compute; reflexivity].
Defined.

(** *** [Scan] *)

Section ScanFacts.
Context {L : CryptoLib}.
Import EncryptedString.

Lemma lift_run {A} (c : Go A) (e : t) w :
  lift c (e, w) = (fst (c w), (e, snd (c w))).
Proof. unfold lift. simpl. by destruct (c w). Qed.

(** [Scan] on a non-empty byte slice: the receiver takes the plaintext
    when [Decrypt] returns one and keeps its value otherwise. *)
Lemma Scan_bytes (e : t) v w :
  v <> [] ->
  Scan (VBytes v) (e, w) =
    match fst (Decrypt e v w) with
    | Ok val => (Ok tt, (val, snd (Decrypt e v w)))
    | Err err => (Err err, (e, snd (Decrypt e v w)))
    | Panic p => (Panic p, (e, snd (Decrypt e v w)))
    end.
Proof.
  intros Hv. unfold Scan. destruct v as [|b v]; [done|].
  change (length (b :: v) =? 0) with false. cbv iota.
  unfold bind at 1. unfold load, gets. unfold bind at 1.
  cbv beta. cbn [fst]. rewrite lift_run.
  by destruct (fst (Decrypt e (b :: v) w)).
Qed.

Lemma Scan_empty (e : t) w : Scan (VBytes []) (e, w) = (Ok tt, (""%string, w)).
Proof. reflexivity. Qed.

Lemma Scan_not_bytes (e : t) src w :
  (forall v, src <> VBytes v) -> Scan src (e, w) = (Err ErrSrcNotBytes, (e, w)).
Proof. intros H. destruct src; try done. by destruct (H v). Qed.

Lemma Scan_keeps_receiver (e : t) src w :
  fst (Scan src (e, w)) <> Ok tt -> fst (snd (Scan src (e, w))) = e.
Proof.
  destruct src as [| | | |v| |]; try done.
  destruct v as [|b v]; [done|].
  rewrite Scan_bytes by done.
  by destruct (fst (Decrypt e (b :: v) w)).
Qed.

End ScanFacts.

(** C10. [Scan] is atomic on error: for every receiver value and every
    [src], if [Scan] returns a non-nil error the receiver is left as it
    was; the receiver changes only when [Scan] returns nil. *)
Theorem C10_Scan_atomic_on_error (L : CryptoLib)
    (e : EncryptedString.t) (src : driver_Value) (w : World) :
  (forall err, fst (EncryptedString.Scan src (e, w)) = Err err ->
     fst (snd (EncryptedString.Scan src (e, w))) = e) /\
  (fst (snd (EncryptedString.Scan src (e, w))) <> e ->
     fst (EncryptedString.Scan src (e, w)) = Ok tt).
Proof.
  split.
  - intros err H. apply Scan_keeps_receiver. by rewrite H.
  - intros H. destruct (fst (EncryptedString.Scan src (e, w))) as [[]| |] eqn:E;
      [done|..]; destruct H; apply Scan_keeps_receiver; by rewrite E.
Qed.

Lemma C10_witness :
  fst (EncryptedString.Scan (L := RefLib.lib) (VString "plain") ("before"%string, test_world))
    = Err ErrSrcNotBytes /\
  fst (snd (EncryptedString.Scan (L := RefLib.lib) (VString "plain") ("before"%string, test_world)))
    = "before"%string /\
  fst (EncryptedString.Scan (L := RefLib.lib) (VBytes (take 5 test_ct)) ("before"%string, test_world))
    = Err ErrShortCipher /\
  fst (snd (EncryptedString.Scan (L := RefLib.lib) (VBytes (take 5 test_ct)) ("before"%string, test_world)))
    = "before"%string.
Proof.
  assert (H1 : fst (EncryptedString.Scan (L := RefLib.lib) (VString "plain")
                      ("before"%string, test_world)) = Err ErrSrcNotBytes)
    by reflexivity.
  assert (H2 : fst (EncryptedString.Scan (L := RefLib.lib) (VBytes (take 5 test_ct))
                      ("before"%string, test_world)) = Err ErrShortCipher)
    by (vm_compute; reflexivity).
  split; [exact H1|]. split.
  - exact (proj1 (C10_Scan_atomic_on_error RefLib.lib "before" (VString "plain")
                    test_world) _ H1).
  - split; [exact H2|].
    exact (proj1 (C10_Scan_atomic_on_error RefLib.lib "before"
                    (VBytes (take 5 test_ct)) test_world) _ H2).
Defined.

(** *** The empty string *)

Section EmptyString.
Context {L : CryptoLib}.
Import EncryptedString.

(** Every ciphertext of [Encrypt] holds the version byte, the nonce and
    the sealed data: it is never empty, also for the empty plaintext. *)
Lemma Encrypt_length {HL : CryptoLaws L} (e : t) w ct w1 :
  Encrypt e w = (Ok ct, w1) ->
  length ct = 1 + blockSize + (String.length e + gcmTagSize).
Proof.
  intros HE. destruct (Encrypt_Ok_inv _ _ _ _ HE) as (key & nonce & _ & Hn & -> & _).
  cbn [length]. rewrite length_app, gcm_seal_length, Hn.
  assert (length (list_byte_of_string e) = String.length e) as ->; [|lia].
  unfold list_byte_of_string. rewrite length_map.
  clear. induction e as [|a e IH]; simpl; [done|]. by rewrite IH.
Qed.

Lemma Value_empty w : Value "" w = (Ok (VBytes []), w).
Proof. reflexivity. Qed.

End EmptyString.

(** C2 (as amended). [Value] of the empty plaintext returns a zero-length
    byte sequence and leaves the world as it was: no call to the cipher, no
    entropy consumed. *)
Theorem C2_Value_of_empty_plaintext (L : CryptoLib) (w : World) :
  EncryptedString.Value "" w = (Ok (VBytes []), w).
Proof. apply Value_empty. Qed.

(** C2 as stated fails for [Encrypt]: on the empty plaintext it draws a
    nonce, seals, and returns 29 bytes led by the version byte. *)
Lemma C2_counterexample :
  exists ct w1,
    EncryptedString.Encrypt (L := RefLib.lib) "" test_world = (Ok ct, w1) /\
    length ct = 29 /\
    ct !! 0 = Some encryptionVersion /\
    length (randReader test_world) = 32 /\
    length (randReader w1) = 20 /\
    trace w1 = [EvNewCipher test_key; EvRandRead 12; EvNewGCM;
                EvSeal (take 12 test_entropy) []].
Proof. eexists _, _. split; [vm_compute; reflexivity|]. repeat split. Qed.

(** C3 (as amended). [Scan] of an empty byte slice sets the receiver to
    the empty string and returns nil. *)
Theorem C3_Scan_of_empty_ciphertext (L : CryptoLib)
    (e : EncryptedString.t) (w : World) :
  EncryptedString.Scan (VBytes []) (e, w) = (Ok tt, (""%string, w)).
Proof. apply Scan_empty. Qed.

(** C3 as stated fails for [Decrypt]: on the empty ciphertext, with a valid
    key registered, it panics at [ciphertext[0]]. *)
Lemma C3_counterexample :
  valid_encrypt_key test_key test_world /\
  fst (EncryptedString.Decrypt (L := RefLib.lib) "" [] test_world)
    = Panic (IndexOutOfRange 0 0).
Proof. split; [split; reflexivity|reflexivity]. Qed.

(** *** The registry *)

(** C7. For every name already in the registry, [AddKey] with that name
    returns [ErrKeyAlreadyExists] and leaves the world, the registry with
    the key bytes first registered included, as it was. *)
Theorem C7_AddKey_existing_name (name : string) (old key : bytes) (w : World) :
  has_key name old w ->
  AddKey name key w = (Err ErrKeyAlreadyExists, w) /\
  has_key name old (snd (AddKey name key w)).
Proof.
  intros H. rewrite (AddKey_taken name key old w H). by split.
Qed.

Lemma C7_witness :
  has_key "encrypt" test_key test_world /\
  AddKey "encrypt" [x00] test_world = (Err ErrKeyAlreadyExists, test_world) /\
  has_key "encrypt" test_key (snd (AddKey "encrypt" [x00] test_world)).
Proof.
  assert (H : has_key "encrypt" test_key test_world) by reflexivity.
  split; [exact H|].
  exact (C7_AddKey_existing_name "encrypt" test_key [x00] test_world H).
Defined.

(** Registering a name twice: the first call succeeds, the second fails
    and the first key stays. *)
Lemma AddKey_twice name key1 key2 w :
  encryptionKeys w !! name = None ->
  exists w1,
    AddKey name key1 w = (Ok tt, w1) /\
    AddKey name key2 w1 = (Err ErrKeyAlreadyExists, w1) /\
    has_key name key1 w1.
Proof.
  intros H. eexists. split; [by apply AddKey_fresh|].
  assert (Hk : has_key name key1 (set_keys (<[name := key1]> (encryptionKeys w)) w))
    by apply lookup_insert_eq.
  split; [|done]. by apply (AddKey_taken name key2 key1).
Qed.

(** [AddKey] leaves every other name as it was. *)
Lemma AddKey_other name name' key w :
  name <> name' ->
  encryptionKeys (snd (AddKey name key w)) !! name' = encryptionKeys w !! name'.
Proof.
  intros Hne. destruct (encryptionKeys w !! name) as [old|] eqn:E.
  - by rewrite (AddKey_taken name key old).
  - rewrite AddKey_fresh by done. simpl. by rewrite lookup_insert_ne.
Qed.

(** *** Calls without a registered key *)

Section MissingKey.
Context {L : CryptoLib}.

Lemma GetHash_run (b : BlindIndexHash.t) w :
  let key := default [] (encryptionKeys w !! "blindIndex") in
  BlindIndexHash.GetHash b w =
    (Ok (hmac_sha512 key (list_byte_of_string b)),
     log (EvHMAC key (list_byte_of_string b)) w).
Proof. reflexivity. Qed.

Lemma GetBase64_run (b : BlindIndexHash.t) w :
  let key := default [] (encryptionKeys w !! "blindIndex") in
  BlindIndexHash.GetBase64 b w =
    (Ok (EncodeToString (hmac_sha512 key (list_byte_of_string b))),
     log (EvHMAC key (list_byte_of_string b)) w).
Proof. reflexivity. Qed.

End MissingKey.

(** Without a key under "blindIndex", [GetHash] still returns a digest: the
    HMAC under the empty key. *)
Lemma GetHash_without_key (L : CryptoLib) (b : BlindIndexHash.t) (w : World) :
  encryptionKeys w !! "blindIndex" = None ->
  fst (BlindIndexHash.GetHash b w) = Ok (hmac_sha512 [] (list_byte_of_string b)).
Proof. intros H. rewrite GetHash_run. by rewrite H. Qed.

(** C8 (as amended). When "encrypt" is not registered, every [Encrypt] and
    every [Decrypt] fails, with [aes.KeySizeError(0)] from the cipher
    construction. *)
Theorem C8_codec_without_key (L : CryptoLib)
    (P e : EncryptedString.t) (ct : bytes) (w : World) :
  encryptionKeys w !! "encrypt" = None ->
  fst (EncryptedString.Encrypt P w) = Err (KeySizeError 0) /\
  fst (EncryptedString.Decrypt e ct w) = Err (KeySizeError 0).
Proof.
  intros H. rewrite Encrypt_bad_key, Decrypt_bad_key by (by rewrite H).
  by rewrite H.
Qed.

Lemma C8_witness :
  encryptionKeys empty_world !! "encrypt"%string = None /\
  fst (EncryptedString.Encrypt (L := RefLib.lib) "Hello World" empty_world)
    = Err (KeySizeError 0) /\
  fst (EncryptedString.Decrypt (L := RefLib.lib) "" test_ct empty_world)
    = Err (KeySizeError 0).
Proof.
  assert (H : encryptionKeys empty_world !! "encrypt"%string = None) by reflexivity.
  split; [exact H|].
  exact (C8_codec_without_key RefLib.lib "Hello World" "" test_ct empty_world H).
Defined.

(** C8 as stated fails: without any key registered [Encrypt] and [Decrypt]
    fail with [KeySizeError 0], not [ErrNoSuchKey], and [GetHash] returns a
    digest. *)
Lemma C8_counterexample :
  encryptionKeys empty_world = ∅ /\
  fst (EncryptedString.Encrypt (L := RefLib.lib) "Hello World" empty_world)
    = Err (KeySizeError 0) /\
  fst (EncryptedString.Decrypt (L := RefLib.lib) "" test_ct empty_world)
    = Err (KeySizeError 0) /\
  KeySizeError 0 <> ErrNoSuchKey /\
  exists digest,
    fst (BlindIndexHash.GetHash (L := RefLib.lib) "Hello World" empty_world)
      = Ok digest.
Proof. repeat split; try done. by eexists. Qed.

(** *** The blind index of the empty string *)

Section Base64.

Lemma bytes_ind3 (Q : bytes -> Prop) :
  Q [] -> (forall a, Q [a]) -> (forall a b, Q [a; b]) ->
  (forall a b c rest, Q rest -> Q (a :: b :: c :: rest)) ->
  forall l, Q l.
Proof.
  intros H0 H1 H2 H3. fix IH 1.
  intros [|a [|b [|c rest]]]; [done|done|done|].
  apply H3, IH.
Qed.

(** [EncodeToString] pads: four characters for every three bytes begun. *)
Lemma EncodeToString_length (src : bytes) :
  String.length (EncodeToString src) = 4 * ((length src + 2) / 3).
Proof.
  induction src as [|a|a b|a b c rest IH] using bytes_ind3; [done..|].
  cbn [EncodeToString String.length length]. rewrite IH.
  replace (S (S (S (length rest))) + 2) with ((length rest + 2) + 1 * 3) by lia.
  rewrite Nat.div_add by lia. lia.
Qed.

End Base64.

Section BlindIndex.
Context {L : CryptoLib} {HL : CryptoLaws L}.

Lemma BlindIndexHash_Value_empty w :
  BlindIndexHash.Value "" w = (Ok (VString ""), w).
Proof. reflexivity. Qed.

Lemma BlindIndexHash_Value_nonempty (b : BlindIndexHash.t) w :
  b <> ""%string ->
  exists s,
    fst (BlindIndexHash.Value b w) = Ok (VString s) /\ String.length s = 88.
Proof.
  intros Hb. unfold BlindIndexHash.Value.
  destruct (String.eqb b "") eqn:E; [by apply String.eqb_eq in E|].
  unfold bind at 1. rewrite GetBase64_run. simpl.
  eexists. split; [done|].
  by rewrite EncodeToString_length, hmac_sha512_length.
Qed.

End BlindIndex.

(** C9 (as amended). [BlindIndexHash.Value] of the empty input is the empty
    string, computed without a call to the HMAC, and it differs from the
    value of every non-empty input, which is the 88-character base64 text
    of a 64-byte digest. *)
Theorem C9_blind_index_of_empty_input (L : CryptoLib) (HL : CryptoLaws L)
    (w : World) :
  BlindIndexHash.Value "" w = (Ok (VString ""), w) /\
  forall (b : BlindIndexHash.t) (w' : World),
    b <> ""%string ->
    exists s,
      fst (BlindIndexHash.Value b w') = Ok (VString s) /\
      String.length s = 88 /\
      fst (BlindIndexHash.Value b w') <> fst (BlindIndexHash.Value "" w).
Proof.
  split; [done|]. intros b w' Hb.
  destruct (BlindIndexHash_Value_nonempty b w' Hb) as (s & Hs & Hlen).
  exists s. split; [done|]. split; [done|].
  rewrite Hs, BlindIndexHash_Value_empty. simpl.
  intros [= ->]. discriminate.
Qed.

Lemma C9_witness :
  BlindIndexHash.Value (L := RefLib.lib) "" index_world = (Ok (VString ""), index_world) /\
  "Hello World"%string <> ""%string /\
  exists s,
    fst (BlindIndexHash.Value (L := RefLib.lib) "Hello World" index_world) = Ok (VString s) /\
    String.length s = 88 /\
    fst (BlindIndexHash.Value (L := RefLib.lib) "Hello World" index_world)
      <> fst (BlindIndexHash.Value (L := RefLib.lib) "" index_world).
Proof.
  assert (Hb : "Hello World"%string <> ""%string) by discriminate.
  destruct (C9_blind_index_of_empty_input RefLib.lib RefLib_laws index_world)
    as [Hempty Hother].
  split; [exact Hempty|]. split; [exact Hb|].
  exact (Hother "Hello World"%string index_world Hb).
Defined.

(** C9 as stated fails for [GetHash]: on the empty input it computes a
    64-byte digest like on any other. *)
Lemma C9_counterexample :
  exists digest w1,
    BlindIndexHash.GetHash (L := RefLib.lib) "" index_world = (Ok digest, w1) /\
    length digest = 64 /\
    trace w1 = [EvHMAC (list_byte_of_string "0123456789abcdef") []].
Proof. eexists _, _. split; [vm_compute; reflexivity|]. by split. Qed.

(** *** Further properties of the codec *)

Section More.
Context {L : CryptoLib}.
Import EncryptedString.

(** Where the nonce of a ciphertext comes from and what is left of the
    entropy. *)
Lemma Encrypt_nonce (P : t) w ct w1 :
  Encrypt P w = (Ok ct, w1) ->
  take blockSize (drop 1 ct) = take blockSize (randReader w) /\
  randReader w1 = drop blockSize (randReader w).
Proof.
  intros HE. destruct (valid_key_cases w) as [[key Hv]|Hbad].
  2:{ rewrite Encrypt_bad_key in HE by done. discriminate. }
  destruct (decide (blockSize <= length (randReader w))) as [Hr|Hr].
  2:{ destruct (Encrypt_no_entropy P key w Hv Hr) as (err & w' & E).
      rewrite E in HE. discriminate. }
  rewrite (Encrypt_run P key) in HE by done. injection HE as <- <-.
  split; [|done]. cbn [drop]. rewrite drop_0.
  rewrite take_app_le by (rewrite length_take; lia).
  by rewrite take_take, Nat.min_id.
Qed.

(** Every outcome [Decrypt] has. *)
Lemma Decrypt_outcomes (e : t) ct w :
  (exists k, fst (Decrypt e ct w) = Err (KeySizeError k)) \/
  fst (Decrypt e ct w) = Panic (IndexOutOfRange 0 0) \/
  fst (Decrypt e ct w) = Err ErrVersionMismatch \/
  fst (Decrypt e ct w) = Err ErrShortCipher \/
  fst (Decrypt e ct w) = Err errOpen \/
  (exists plaintext, fst (Decrypt e ct w) = Ok plaintext).
Proof.
  destruct (valid_key_cases w) as [[key Hv]|Hbad].
  2:{ left. rewrite Decrypt_bad_key by done. eauto. }
  right. destruct ct as [|version rest].
  { left. by rewrite (Decrypt_empty e key). }
  right. destruct (decide (version = encryptionVersion)) as [->|Hver].
  2:{ left. by rewrite (Decrypt_version e version rest key). }
  right. destruct (decide (length rest < blockSize)) as [Hlen|Hlen].
  { left. by rewrite (Decrypt_short e rest key). }
  right. rewrite (Decrypt_long e rest key) by (done || lia). simpl.
  destruct (gcm_open _ _ _); eauto.
Qed.

Lemma Value_nonempty (P : t) w :
  P <> ""%string ->
  Value P w =
    match fst (Encrypt P w) with
    | Ok val => (Ok (VBytes val), snd (Encrypt P w))
    | Err err => (Err err, snd (Encrypt P w))
    | Panic p => (Panic p, snd (Encrypt P w))
    end.
Proof.
  intros HP. unfold Value.
  destruct (String.eqb P "") eqn:E; [by apply String.eqb_eq in E|].
  unfold bind at 1. by destruct (Encrypt P w) as [[val|err|p] w1].
Qed.

End More.

(** X1. What [Value] stored, [Scan] reads back (the package's tests
    [TestValuerScanner] and [TestValuerScannerEmptyString]): with a key that
    AES accepts and twelve bytes of entropy, [Value] returns a byte slice
    and [Scan] of it returns nil and leaves the plaintext in the receiver. *)
Theorem Value_Scan_roundtrip (L : CryptoLib) (HL : CryptoLaws L)
    (P e : EncryptedString.t) (key : bytes) (w : World) :
  valid_encrypt_key key w ->
  blockSize <= length (randReader w) ->
  exists v w1,
    EncryptedString.Value P w = (Ok (VBytes v), w1) /\
    forall w2,
      encryptionKeys w2 !! "encrypt" = encryptionKeys w !! "encrypt" ->
      fst (EncryptedString.Scan (VBytes v) (e, w2)) = Ok tt /\
      fst (snd (EncryptedString.Scan (VBytes v) (e, w2))) = P.
Proof.
  intros Hv Hr. destruct (decide (P = ""%string)) as [->|HP].
  - exists [], w. split; [done|]. intros w2 _. by rewrite Scan_empty.
  - pose proof (@Encrypt_run L P key w Hv Hr) as HE.
    eexists _, _. split.
    { rewrite Value_nonempty by done. by rewrite HE. }
    intros w2 Hsame. rewrite Scan_bytes by done.
    by rewrite (Decrypt_Encrypt P e w _ _ w2 HE Hsame).
Qed.

Lemma Value_Scan_roundtrip_witness :
  valid_encrypt_key test_key test_world /\
  blockSize <= length (randReader test_world) /\
  exists v w1,
    EncryptedString.Value (L := RefLib.lib) "Hello World" test_world = (Ok (VBytes v), w1) /\
    forall w2,
      encryptionKeys w2 !! "encrypt"%string = encryptionKeys test_world !! "encrypt"%string ->
      fst (EncryptedString.Scan (L := RefLib.lib) (VBytes v) (""%string, w2)) = Ok tt /\
      fst (snd (EncryptedString.Scan (L := RefLib.lib) (VBytes v) (""%string, w2)))
        = "Hello World"%string.
Proof.
  assert (Hv : valid_encrypt_key test_key test_world) by (split; reflexivity).
  assert (Hr : blockSize <= length (randReader test_world)) by (vm_compute; lia).
  split; [exact Hv|]. split; [exact Hr|].
  exact (Value_Scan_roundtrip RefLib.lib RefLib_laws "Hello World" ""
           test_key test_world Hv Hr).
Defined.

Lemma Encrypt_short_of_entropy (L : CryptoLib)
    (P : EncryptedString.t) (key : bytes) (w : World) :
  valid_encrypt_key key w ->
  length (randReader w) < blockSize ->
  exists err,
    EncryptedString.Encrypt P w =
      (Err err, mkWorld (encryptionKeys w) []
                  (trace w ++ [EvNewCipher key; EvRandRead blockSize])) /\
    (err = EOF \/ err = ErrUnexpectedEOF).
Proof.
  intros [Hk Hsz] Hr. unfold EncryptedString.Encrypt.
  unfold bind at 1. rewrite map_index_run, Hk. simpl default.
  unfold bind at 1. rewrite aes_NewCipher_ok by done.
  unfold bind at 1. unfold io_ReadFull_rand.
  rewrite decide_False by (cbn [randReader log]; lia).
  eexists. split.
  - unfold set_rand, log. simpl. by rewrite <- app_assoc.
  - simpl. destruct (randReader w); eauto.
Qed.

(** X2. When the random source cannot deliver twelve bytes, [Encrypt]
    fails with the error of [io.ReadFull] and seals nothing. *)
Theorem Encrypt_fails_without_entropy (L : CryptoLib)
    (P : EncryptedString.t) (key : bytes) (w : World) :
  valid_encrypt_key key w ->
  length (randReader w) < blockSize ->
  exists err,
    EncryptedString.Encrypt P w =
      (Err err, mkWorld (encryptionKeys w) []
                  (trace w ++ [EvNewCipher key; EvRandRead blockSize])) /\
    (err = EOF \/ err = ErrUnexpectedEOF).
Proof. apply Encrypt_short_of_entropy. Qed.

Lemma Encrypt_fails_without_entropy_witness :
  valid_encrypt_key test_key (set_rand [x00; x01] test_world) /\
  length (randReader (set_rand [x00; x01] test_world)) < blockSize /\
  exists err,
    EncryptedString.Encrypt (L := RefLib.lib) "Hello World"
        (set_rand [x00; x01] test_world) =
      (Err err, mkWorld (encryptionKeys test_world) []
                  [EvNewCipher test_key; EvRandRead blockSize]) /\
    (err = EOF \/ err = ErrUnexpectedEOF).
Proof.
  assert (Hv : valid_encrypt_key test_key (set_rand [x00; x01] test_world))
    by (split; reflexivity).
  assert (Hr : length (randReader (set_rand [x00; x01] test_world)) < blockSize)
    by (vm_compute; lia).
  split; [exact Hv|]. split; [exact Hr|].
  exact (Encrypt_fails_without_entropy RefLib.lib "Hello World" test_key
           (set_rand [x00; x01] test_world) Hv Hr).
Defined.

(** X3. A ciphertext of [Encrypt] is one version byte, twelve bytes of
    nonce, and the sealed data, sixteen bytes longer than the plaintext: at
    least 29 bytes. *)
Theorem Encrypt_ciphertext_length (L : CryptoLib) (HL : CryptoLaws L)
    (P : EncryptedString.t) (w w1 : World) (ct : bytes) :
  EncryptedString.Encrypt P w = (Ok ct, w1) ->
  length ct = 1 + blockSize + (String.length P + gcmTagSize) /\
  ct !! 0 = Some encryptionVersion.
Proof.
  intros HE. split; [by apply (Encrypt_length P w ct w1)|].
  by destruct (Encrypt_Ok_inv _ _ _ _ HE) as (key & nonce & _ & _ & -> & _).
Qed.

Lemma Encrypt_ciphertext_length_witness :
  EncryptedString.Encrypt (L := RefLib.lib) "Hello World" test_world
    = (Ok test_ct, test_world1) /\
  length test_ct = 1 + blockSize + (String.length "Hello World" + gcmTagSize) /\
  test_ct !! 0 = Some encryptionVersion.
Proof.
  assert (HE : EncryptedString.Encrypt (L := RefLib.lib) "Hello World" test_world
                 = (Ok test_ct, test_world1)) by (vm_compute; reflexivity).
  split; [exact HE|].
  exact (Encrypt_ciphertext_length RefLib.lib RefLib_laws "Hello World"
           test_world test_world1 test_ct HE).
Defined.

(** X4. Two calls of [Encrypt] on the same plaintext whose nonces differ
    return different ciphertexts, and both decrypt to the plaintext. *)
Theorem Encrypt_twice_differs (L : CryptoLib) (HL : CryptoLaws L)
    (P e : EncryptedString.t) (w w1 w2 : World) (ct1 ct2 : bytes) :
  EncryptedString.Encrypt P w = (Ok ct1, w1) ->
  EncryptedString.Encrypt P w1 = (Ok ct2, w2) ->
  take blockSize (randReader w) <> take blockSize (randReader w1) ->
  ct1 <> ct2 /\
  fst (EncryptedString.Decrypt e ct1 w2) = Ok P /\
  fst (EncryptedString.Decrypt e ct2 w2) = Ok P.
Proof.
  intros H1 H2 Hne.
  destruct (Encrypt_Ok_inv _ _ _ _ H1) as (k1 & n1 & _ & _ & _ & Hk1).
  destruct (Encrypt_Ok_inv _ _ _ _ H2) as (k2 & n2 & _ & _ & _ & Hk2).
  split; [|split].
  - intros ->. apply Hne.
    destruct (Encrypt_nonce _ _ _ _ H1) as [<- _].
    by destruct (Encrypt_nonce _ _ _ _ H2) as [<- _].
  - apply (Decrypt_Encrypt P e w ct1 w1 w2 H1). by rewrite Hk2, Hk1.
  - apply (Decrypt_Encrypt P e w1 ct2 w2 w2 H2). by rewrite Hk2.
Qed.

Lemma Encrypt_twice_differs_witness :
  EncryptedString.Encrypt (L := RefLib.lib) "Hello World" test_world
    = (Ok test_ct, test_world1) /\
  EncryptedString.Encrypt (L := RefLib.lib) "Hello World" test_world1
    = (Ok test_ct2, test_world2) /\
  take blockSize (randReader test_world) <> take blockSize (randReader test_world1) /\
  test_ct <> test_ct2 /\
  fst (EncryptedString.Decrypt (L := RefLib.lib) "" test_ct test_world2)
    = Ok "Hello World"%string /\
  fst (EncryptedString.Decrypt (L := RefLib.lib) "" test_ct2 test_world2)
    = Ok "Hello World"%string.
Proof.
  assert (H1 : EncryptedString.Encrypt (L := RefLib.lib) "Hello World" test_world
                 = (Ok test_ct, test_world1)) by (vm_compute; reflexivity).
  assert (H2 : EncryptedString.Encrypt (L := RefLib.lib) "Hello World" test_world1
                 = (Ok test_ct2, test_world2)) by (vm_compute; reflexivity).
  assert (Hne : take blockSize (randReader test_world)
                <> take blockSize (randReader test_world1))
    by (vm_compute; discriminate).
  split; [exact H1|]. split; [exact H2|]. split; [exact Hne|].
  exact (Encrypt_twice_differs RefLib.lib RefLib_laws "Hello World" ""
           test_world test_world1 test_world2 test_ct test_ct2 H1 H2 Hne).
Defined.

(** *** [ErrNoSuchKey] *)

Section Outcomes.
Context {L : CryptoLib}.
Import EncryptedString.

Lemma Encrypt_outcomes (P : t) w :
  (exists k, fst (Encrypt P w) = Err (KeySizeError k)) \/
  fst (Encrypt P w) = Err EOF \/
  fst (Encrypt P w) = Err ErrUnexpectedEOF \/
  (exists ct, fst (Encrypt P w) = Ok ct).
Proof.
  destruct (valid_key_cases w) as [[key Hv]|Hbad].
  2:{ left. rewrite Encrypt_bad_key by done. eauto. }
  right. destruct (decide (blockSize <= length (randReader w))) as [Hr|Hr].
  - right. right. rewrite (Encrypt_run P key) by done. eauto.
  - destruct (Encrypt_short_of_entropy L P key w Hv) as (err & -> & [->| ->]);
      [lia|by left|by right; left].
Qed.

End Outcomes.

(** X5. No function of the package returns [ErrNoSuchKey]. *)
Theorem ErrNoSuchKey_is_never_returned (L : CryptoLib)
    (P e : EncryptedString.t) (b : BlindIndexHash.t) (ct key : bytes)
    (name : string) (src : driver_Value) (w : World) :
  fst (AddKey name key w) <> Err ErrNoSuchKey /\
  fst (EncryptedString.Encrypt P w) <> Err ErrNoSuchKey /\
  fst (EncryptedString.Decrypt e ct w) <> Err ErrNoSuchKey /\
  fst (EncryptedString.Value P w) <> Err ErrNoSuchKey /\
  fst (EncryptedString.Scan src (e, w)) <> Err ErrNoSuchKey /\
  fst (BlindIndexHash.GetHash b w) <> Err ErrNoSuchKey /\
  fst (BlindIndexHash.GetBase64 b w) <> Err ErrNoSuchKey /\
  fst (BlindIndexHash.Value b w) <> Err ErrNoSuchKey.
Proof.
  assert (HE : fst (EncryptedString.Encrypt P w) <> Err ErrNoSuchKey).
  { destruct (Encrypt_outcomes P w) as [[k ->]|[->|[->|[c ->]]]]; discriminate. }
  assert (HD : forall v, fst (EncryptedString.Decrypt e v w) <> Err ErrNoSuchKey).
  { intros v.
    destruct (Decrypt_outcomes e v w) as [[k ->]|[->|[->|[->|[->|[p ->]]]]]];
      discriminate. }
  split_and!; try done.
  - destruct (encryptionKeys w !! name) as [old|] eqn:E.
    + by rewrite (AddKey_taken name key old).
    + by rewrite AddKey_fresh.
  - destruct (decide (P = ""%string)) as [->|HP]; [done|].
    rewrite Value_nonempty by done.
    destruct (fst (EncryptedString.Encrypt P w)); simpl; congruence.
  - destruct src as [| | | |v| |]; try done.
    destruct v as [|x v]; [done|]. rewrite Scan_bytes by done.
    specialize (HD (x :: v)).
    destruct (fst (EncryptedString.Decrypt e (x :: v) w)); simpl; congruence.
  - unfold BlindIndexHash.Value. by destruct (String.eqb b "").
Qed.


(** *** The reference encoding meets the interface's laws *)

Section RefEncodingFacts.
Import RefEncoding.

Lemma list_byte_of_string_cons c s :
  list_byte_of_string (String c s) = byte_of_ascii c :: list_byte_of_string s.
Proof. reflexivity. Qed.

Lemma land_63_lt v : (N.land v 63 < 64)%N.
Proof.
  change 63%N with (N.ones 6). rewrite N.land_ones.
  apply N.mod_upper_bound. discriminate.
Qed.

Lemma land_63_mod v : N.land v 63 = (v mod 64)%N.
Proof. change 63%N with (N.ones 6). by rewrite N.land_ones. Qed.

(** Every character of the alphabet decodes to its position. *)
Lemma dec6_alphabet (n : N) :
  (n < 64)%N ->
  dec6 (byte_of_ascii
          (default "="%char (list_ascii_of_string encodeURL !! N.to_nat n)))
    = Some n.
Proof.
  intros Hn.
  assert (Hall : forallb
            (fun k => match dec6 (byte_of_ascii
                              (default "="%char (list_ascii_of_string encodeURL !! k))) with
                      | Some m => N.eqb m (N.of_nat k)
                      | None => false
                      end) (seq 0 64) = true) by (vm_compute; reflexivity).
  rewrite forallb_forall in Hall.
  specialize (Hall (N.to_nat n)).
  assert (Hin : In (N.to_nat n) (seq 0 64)) by (apply in_seq; lia).
  specialize (Hall Hin).
  destruct (dec6 _) as [m|]; [|discriminate].
  f_equal. rewrite N2Nat.id in Hall. by apply N.eqb_eq.
Qed.

Lemma dec6_enc6 v : dec6 (byte_of_ascii (enc6 v)) = Some (v mod 64)%N.
Proof.
  unfold enc6. rewrite dec6_alphabet by apply land_63_lt.
  by rewrite land_63_mod.
Qed.

(** A left shift joined with lower bits by [lor] is a sum. *)
Lemma lor_shiftl_low (x y k : N) :
  (y < 2 ^ k)%N -> N.lor (N.shiftl x k) y = (x * 2 ^ k + y)%N.
Proof.
  intros Hy. rewrite <- N.shiftl_mul_pow2.
  assert (Hland : N.land (N.shiftl x k) y = 0%N).
  { apply N.bits_inj. intros n. rewrite N.land_spec, N.bits_0.
    destruct (N.ltb_spec n k) as [Hlt|Hge].
    - by rewrite N.shiftl_spec_low.
    - rewrite <- (N.mod_small y (2 ^ k)) by done.
      rewrite N.mod_pow2_bits_high by done. apply andb_false_r. }
  rewrite <- N.lxor_lor by done. symmetry. by apply N.add_nocarry_lxor.
Qed.

Lemma val_of_three (a b c : byte) :
  N.lor (N.lor (N.shiftl (Byte.to_N a) 16) (N.shiftl (Byte.to_N b) 8)) (Byte.to_N c)
    = (Byte.to_N a * 65536 + Byte.to_N b * 256 + Byte.to_N c)%N.
Proof.
  pose proof (to_N_lt a). pose proof (to_N_lt b). pose proof (to_N_lt c).
  rewrite (N.shiftl_mul_pow2 (Byte.to_N b)).
  rewrite lor_shiftl_low by (change (2 ^ 8)%N with 256%N; change (2 ^ 16)%N with 65536%N; lia).
  replace (Byte.to_N a * 2 ^ 16 + Byte.to_N b * 2 ^ 8)%N
    with ((Byte.to_N a * 256 + Byte.to_N b) * 2 ^ 8)%N
    by (change (2 ^ 8)%N with 256%N; change (2 ^ 16)%N with 65536%N; lia).
  rewrite <- N.shiftl_mul_pow2.
  rewrite lor_shiftl_low by (change (2 ^ 8)%N with 256%N; lia).
  change (2 ^ 8)%N with 256%N. lia.
Qed.

Lemma val_of_two (a b : byte) :
  N.lor (N.shiftl (Byte.to_N a) 16) (N.shiftl (Byte.to_N b) 8)
    = (Byte.to_N a * 65536 + Byte.to_N b * 256)%N.
Proof.
  pose proof (to_N_lt b).
  rewrite (N.shiftl_mul_pow2 (Byte.to_N b)).
  rewrite lor_shiftl_low by (change (2 ^ 8)%N with 256%N; change (2 ^ 16)%N with 65536%N; lia).
  by change (2 ^ 8)%N with 256%N; change (2 ^ 16)%N with 65536%N.
Qed.

Lemma val_of_one (a : byte) :
  N.shiftl (Byte.to_N a) 16 = (Byte.to_N a * 65536)%N.
Proof. by rewrite N.shiftl_mul_pow2. Qed.

Lemma byte_of_to_N (a : byte) (n : N) :
  (n mod 256 = Byte.to_N a)%N -> byte_of n = a.
Proof.
  intros H. unfold byte_of. rewrite H, Byte.of_to_N. done.
Qed.

End RefEncodingFacts.

Section RefEncodingLaws.
Import RefEncoding.

Lemma div_base (x q r d : N) : (x = q * d + r -> r < d -> x / d = q)%N.
Proof. intros -> Hr. symmetry. apply (N.div_unique _ d q r); lia. Qed.

Lemma mod_base (x q r d : N) : (x = q * d + r -> r < d -> x mod d = r)%N.
Proof. intros -> Hr. symmetry. apply (N.mod_unique _ d q r); lia. Qed.

(** Four 6-bit digits of a 24-bit value give its three bytes back. *)
Lemma recombine_three (a b c : N) :
  (a < 256 -> b < 256 -> c < 256 ->
   let v := a * 65536 + b * 256 + c in
   ((v / 2 ^ 18) mod 64 * 4 + (v / 2 ^ 12) mod 64 / 16) mod 256 = a /\
   ((v / 2 ^ 12) mod 64 * 16 + (v / 2 ^ 6) mod 64 / 4) mod 256 = b /\
   ((v / 2 ^ 6) mod 64 * 64 + v mod 64) mod 256 = c)%N.
Proof.
  intros Ha Hb Hc v. subst v.
  change (2 ^ 18)%N with 262144%N. change (2 ^ 12)%N with 4096%N.
  change (2 ^ 6)%N with 64%N.
  pose proof (N.div_mod' a 4) as Ea.
  pose proof (N.mod_upper_bound a 4 ltac:(lia)) as Ba.
  pose proof (N.div_mod' b 16) as Eb.
  pose proof (N.mod_upper_bound b 16 ltac:(lia)) as Bb.
  pose proof (N.div_mod' c 64) as Ec.
  pose proof (N.mod_upper_bound c 64 ltac:(lia)) as Bc.
  set (a1 := (a / 4)%N) in *. set (a0 := (a mod 4)%N) in *.
  set (b1 := (b / 16)%N) in *. set (b0 := (b mod 16)%N) in *.
  set (c1 := (c / 64)%N) in *. set (c0 := (c mod 64)%N) in *.
  rewrite (div_base _ a1 (a0 * 65536 + b * 256 + c) 262144) by lia.
  rewrite (div_base _ (a * 16 + b1) (b0 * 256 + c) 4096) by lia.
  rewrite (div_base _ (a * 1024 + b * 4 + c1) c0 64) by lia.
  rewrite (mod_base (a * 65536 + b * 256 + c) (a * 1024 + b * 4 + c1) c0 64) by lia.
  rewrite (mod_base a1 0 a1 64) by lia.
  rewrite (mod_base (a * 16 + b1) a1 (a0 * 16 + b1) 64) by lia.
  rewrite (mod_base (a * 1024 + b * 4 + c1) (a * 16 + b1) (b0 * 4 + c1) 64) by lia.
  rewrite (div_base (a0 * 16 + b1) a0 b1 16) by lia.
  rewrite (div_base (b0 * 4 + c1) b0 c1 4) by lia.
  repeat split.
  - apply (mod_base _ 0 a); lia.
  - apply (mod_base _ a0 b); lia.
  - apply (mod_base _ b0 c); lia.
Qed.

Lemma decode_EncodeToString (src : bytes) (si : nat) :
  decode (list_byte_of_string (EncodeToString src)) si = (src, None).
Proof.
  revert si. induction src as [|a|a b|a b c rest IH] using bytes_ind3; intros si.
  - reflexivity.
  - cbn [EncodeToString]. rewrite !list_byte_of_string_cons. cbn [decode list_byte_of_string].
    rewrite !dec6_enc6.
    change (dec6 (byte_of_ascii padChar)) with (@None N).
    change (is_pad (byte_of_ascii padChar)) with true. cbn [andb isnil map].
    rewrite val_of_one, !N.shiftr_div_pow2.
    destruct (recombine_three (Byte.to_N a) 0 0) as (H1 & _ & _);
      [apply to_N_lt|done|done|].
    rewrite !N.add_0_r in H1. by rewrite (byte_of_to_N a _ H1).
  - cbn [EncodeToString]. rewrite !list_byte_of_string_cons. cbn [decode list_byte_of_string].
    rewrite !dec6_enc6.
    change (dec6 (byte_of_ascii padChar)) with (@None N).
    change (is_pad (byte_of_ascii padChar)) with true. cbn [andb isnil map].
    rewrite val_of_two, !N.shiftr_div_pow2.
    destruct (recombine_three (Byte.to_N a) (Byte.to_N b) 0) as (H1 & H2 & _);
      [apply to_N_lt|apply to_N_lt|done|].
    rewrite !N.add_0_r in H1, H2.
    by rewrite (byte_of_to_N a _ H1), (byte_of_to_N b _ H2).
  - cbn [EncodeToString]. rewrite !list_byte_of_string_cons. cbn [decode].
    rewrite !dec6_enc6, IH.
    rewrite val_of_three, !N.shiftr_div_pow2.
    destruct (recombine_three (Byte.to_N a) (Byte.to_N b) (Byte.to_N c))
      as (H1 & H2 & H3); [apply to_N_lt..|].
    by rewrite (byte_of_to_N a _ H1), (byte_of_to_N b _ H2), (byte_of_to_N c _ H3).
Qed.

Lemma marshal_url_safe (s : string) :
  url_safe s = true -> marshal s = quote :: list_byte_of_string s ++ [quote].
Proof. done. Qed.

End RefEncodingLaws.

#[global] Instance RefEncoding_laws : EncodingLaws RefEncoding.lib.
Proof.
  split.
  - intros src. apply decode_EncodeToString.
  - intros s. apply marshal_url_safe.
Qed.

(** *** What a call leaves untouched *)

Create HintDb frame discriminated.

Section Frame.
Context {L : CryptoLib} {X : Type} (f : World -> X).

Lemma keeps_ret {A} (a : A) : keeps f (ret a).
Proof. by intros w. Qed.

Lemma keeps_throw {A} (e : error) : keeps f (@throw World A e).
Proof. by intros w. Qed.

Lemma keeps_crash {A} (p : panic) : keeps f (@crash World A p).
Proof. by intros w. Qed.

Lemma keeps_gets {A} (g : World -> A) : keeps f (gets g).
Proof. by intros w. Qed.

Lemma keeps_bind {A B} (c : Go A) (k : A -> Go B) :
  keeps f c -> (forall a, keeps f (k a)) -> keeps f (x <- c ;; k x).
Proof.
  intros Hc Hk w. unfold bind. specialize (Hc w).
  destruct (c w) as [[a|e|p] w1]; simpl in *; [|done..].
  by rewrite Hk.
Qed.

(** Logging an event changes the trace only. *)
Hypothesis f_log : forall ev w, f (log ev w) = f w.

Lemma keeps_log ev : keeps f (modify (log ev)).
Proof. intros w. apply f_log. Qed.

Lemma keeps_map_index name : keeps f (map_index name).
Proof. by intros w. Qed.

Lemma keeps_aes_NewCipher key : keeps f (aes_NewCipher key).
Proof.
  unfold aes_NewCipher. apply keeps_bind; [apply keeps_log|intros _].
  destruct (aes_key_size_ok _); [apply keeps_ret|apply keeps_throw].
Qed.

Lemma keeps_cipher_NewGCM block : keeps f (cipher_NewGCM block).
Proof.
  unfold cipher_NewGCM. apply keeps_bind; [apply keeps_log|intros _; apply keeps_ret].
Qed.

Lemma keeps_Seal aesgcm nonce plaintext : keeps f (Seal aesgcm nonce plaintext).
Proof.
  unfold Seal. apply keeps_bind; [apply keeps_log|intros _].
  destruct (decide _); [apply keeps_ret|apply keeps_crash].
Qed.

Lemma keeps_Open aesgcm nonce sealed : keeps f (Open aesgcm nonce sealed).
Proof.
  unfold Open. apply keeps_bind; [apply keeps_log|intros _].
  destruct (decide _); [|apply keeps_crash].
  destruct (gcm_open _ _ _); [apply keeps_ret|apply keeps_throw].
Qed.

Lemma keeps_fmt_Println line : keeps f (fmt_Println line).
Proof. apply keeps_log. Qed.

Lemma keeps_index s i : keeps f (index s i).
Proof. unfold index. destruct (s !! i); [apply keeps_ret|apply keeps_crash]. Qed.

Lemma keeps_slice s lo hi : keeps f (slice s lo hi).
Proof. unfold slice. destruct (decide _); [apply keeps_ret|apply keeps_crash]. Qed.

Lemma keeps_mac_Sum mac : keeps f (mac_Sum mac).
Proof.
  unfold mac_Sum. apply keeps_bind; [apply keeps_log|intros _; apply keeps_ret].
Qed.

Lemma keeps_Decrypt e ct : keeps f (EncryptedString.Decrypt e ct).
Proof.
  unfold EncryptedString.Decrypt.
  apply keeps_bind; [apply keeps_map_index|intros key].
  apply keeps_bind; [apply keeps_aes_NewCipher|intros block].
  apply keeps_bind; [apply keeps_index|intros version].
  destruct (negb _).
  { apply keeps_bind; [apply keeps_fmt_Println|intros _; apply keeps_throw]. }
  destruct (_ <? _); [apply keeps_throw|].
  apply keeps_bind; [apply keeps_slice|intros nonce].
  apply keeps_bind; [apply keeps_cipher_NewGCM|intros aesgcm].
  apply keeps_bind; [apply keeps_slice|intros sealed].
  apply keeps_bind; [apply keeps_Open|intros plaintext; apply keeps_ret].
Qed.

Lemma keeps_GetHash b : keeps f (BlindIndexHash.GetHash b).
Proof.
  unfold BlindIndexHash.GetHash.
  apply keeps_bind; [apply keeps_map_index|intros key].
  apply keeps_bind; [apply keeps_ret|intros mac].
  apply keeps_bind; [apply keeps_ret|intros mac']. apply keeps_mac_Sum.
Qed.

Lemma keeps_GetBase64 b : keeps f (BlindIndexHash.GetBase64 b).
Proof.
  unfold BlindIndexHash.GetBase64.
  apply keeps_bind; [apply keeps_GetHash|intros byts; apply keeps_ret].
Qed.

Lemma keeps_BlindIndexHash_Value b : keeps f (BlindIndexHash.Value b).
Proof.
  unfold BlindIndexHash.Value. destruct (String.eqb b ""); [apply keeps_ret|].
  apply keeps_bind; [apply keeps_GetBase64|intros val; apply keeps_ret].
Qed.

End Frame.

Section FrameKeys.
Context {L : CryptoLib}.

Lemma keys_log ev w : encryptionKeys (log ev w) = encryptionKeys w.
Proof. done. Qed.

Lemma rand_log ev w : randReader (log ev w) = randReader w.
Proof. done. Qed.

Lemma keeps_keys_ReadFull n : keeps encryptionKeys (io_ReadFull_rand n).
Proof. intros w. unfold io_ReadFull_rand. by destruct (decide _). Qed.

Lemma keeps_keys_Encrypt P : keeps encryptionKeys (EncryptedString.Encrypt P).
Proof.
  unfold EncryptedString.Encrypt.
  apply keeps_bind; [by apply keeps_map_index|intros key].
  apply keeps_bind; [by apply keeps_aes_NewCipher|intros block].
  apply keeps_bind; [apply keeps_keys_ReadFull|intros nonce].
  apply keeps_bind; [by apply keeps_cipher_NewGCM|intros aesgcm].
  apply keeps_bind; [by apply keeps_Seal|intros cText; apply keeps_ret].
Qed.

Lemma keeps_keys_Value P : keeps encryptionKeys (EncryptedString.Value P).
Proof.
  unfold EncryptedString.Value. destruct (String.eqb P ""); [apply keeps_ret|].
  apply keeps_bind; [apply keeps_keys_Encrypt|intros val; apply keeps_ret].
Qed.

End FrameKeys.

#[global] Hint Resolve keeps_ret keeps_throw keeps_crash keeps_gets keeps_log
  keeps_map_index keeps_aes_NewCipher keeps_cipher_NewGCM keeps_Seal keeps_Open
  keeps_fmt_Println keeps_index keeps_slice keeps_mac_Sum keeps_Decrypt
  keeps_GetHash keeps_GetBase64 keeps_BlindIndexHash_Value keys_log rand_log
  keeps_keys_ReadFull keeps_keys_Encrypt keeps_keys_Value : frame.

(** *** The JSON adapter *)

Section Base64Text.

Lemma enc6_url_safe v : url_safe_char (enc6 v) = true.
Proof.
  assert (Hall : forallb
            (fun k => url_safe_char
                        (default "="%char (list_ascii_of_string encodeURL !! k)))
            (seq 0 64) = true) by (vm_compute; reflexivity).
  rewrite forallb_forall in Hall. unfold enc6. apply Hall, in_seq.
  pose proof (land_63_lt v). lia.
Qed.

(** [EncodeToString] writes the URL-safe alphabet and the padding only. *)
Lemma EncodeToString_url_safe (src : bytes) : url_safe (EncodeToString src) = true.
Proof.
  unfold url_safe.
  induction src as [|a|a b|a b c rest IH] using bytes_ind3;
    cbn [EncodeToString list_ascii_of_string forallb];
    rewrite ?enc6_url_safe, ?IH; reflexivity.
Qed.

Lemma EncodeToString_inj (x y : bytes) :
  EncodeToString x = EncodeToString y -> x = y.
Proof.
  intros H. pose proof (decode_EncodeToString x 0) as Hx.
  rewrite H, decode_EncodeToString in Hx. congruence.
Qed.

Lemma length_list_byte_of_string (s : string) :
  length (list_byte_of_string s) = String.length s.
Proof.
  unfold list_byte_of_string. rewrite length_map.
  induction s as [|a s IH]; simpl; [done|]. by rewrite IH.
Qed.

Lemma payload_quoted (text : bytes) (q q' : byte) :
  payload (q :: text ++ [q']) = text.
Proof.
  unfold payload. change (drop 1 (q :: text ++ [q'])) with (text ++ [q']).
  replace (length (q :: text ++ [q']) - 2) with (length text)
    by (cbn [length]; rewrite length_app; simpl; lia).
  apply take_app_length.
Qed.

End Base64Text.

Section JSONFacts.
Context {L : CryptoLib} {E : EncodingLib}.
Import EncryptedString.

Lemma UnmarshalJSON_short (b64 : bytes) (s : t * World) :
  length b64 < 2 ->
  UnmarshalJSON b64 s =
    (JPanic (SliceOutOfRange 1 (length b64 - 1) (length b64)), s).
Proof.
  intros H. unfold UnmarshalJSON, slice. rewrite decide_False by lia. done.
Qed.

(** [UnmarshalJSON] on an input of two bytes or more. *)
Lemma UnmarshalJSON_run (b64 : bytes) (e : t) (w : World) :
  2 <= length b64 ->
  UnmarshalJSON b64 (e, w) =
    match base64_Decode (payload b64) with
    | (_, Some offset) => (JErr (CorruptInputError offset), (e, w))
    | (ciphertext, None) =>
        match fst (Decrypt e ciphertext w) with
        | Ok v => (JOk tt, (v, snd (Decrypt e ciphertext w)))
        | Err err => (JErr (CodecError err), (""%string, snd (Decrypt e ciphertext w)))
        | Panic p => (JPanic p, (e, snd (Decrypt e ciphertext w)))
        end
    end.
Proof.
  intros H. unfold UnmarshalJSON. rewrite slice_run by lia.
  replace (take (length b64 - 1 - 1) (drop 1 b64)) with (payload b64)
    by (unfold payload; f_equal; lia).
  destruct (base64_Decode (payload b64)) as [ciphertext [offset|]]; [done|].
  rewrite lift_run. cbn [fst snd].
  by destruct (fst (Decrypt e ciphertext w)).
Qed.

Lemma MarshalJSON_run (P : t) w :
  MarshalJSON P w =
    match fst (Encrypt P w) with
    | Ok enc => (Ok (json_Marshal_string (EncodeToString enc)), snd (Encrypt P w))
    | Err err => (Err err, snd (Encrypt P w))
    | Panic p => (Panic p, snd (Encrypt P w))
    end.
Proof. unfold MarshalJSON, bind. by destruct (Encrypt P w) as [[enc|err|p] w1]. Qed.

End JSONFacts.

(** X6. What [MarshalJSON] wrote, [UnmarshalJSON] reads back: with a key
    that AES accepts and twelve bytes of entropy, [MarshalJSON] returns a
    JSON text, and [UnmarshalJSON] of it returns nil and leaves the plaintext
    in the receiver, for every plaintext, the empty one included. *)
Theorem MarshalJSON_UnmarshalJSON_roundtrip
    (L : CryptoLib) (HL : CryptoLaws L) (E : EncodingLib) (HE : EncodingLaws E)
    (P e : EncryptedString.t) (key : bytes) (w : World) :
  valid_encrypt_key key w ->
  blockSize <= length (randReader w) ->
  exists js w1,
    EncryptedString.MarshalJSON P w = (Ok js, w1) /\
    forall w2,
      encryptionKeys w2 !! "encrypt" = encryptionKeys w !! "encrypt" ->
      fst (EncryptedString.UnmarshalJSON js (e, w2)) = JOk tt /\
      fst (snd (EncryptedString.UnmarshalJSON js (e, w2))) = P.
Proof.
  intros Hv Hr. pose proof (@Encrypt_run L P key w Hv Hr) as HEnc.
  eexists _, _. split.
  { rewrite MarshalJSON_run, HEnc. cbn [fst snd].
    rewrite json_Marshal_url_safe by apply EncodeToString_url_safe. done. }
  intros w2 Hsame.
  rewrite UnmarshalJSON_run by (cbn [length]; rewrite length_app; simpl; lia).
  rewrite payload_quoted, base64_Decode_Encode.
  by rewrite (Decrypt_Encrypt P e w _ _ w2 HEnc Hsame).
Qed.

Lemma MarshalJSON_UnmarshalJSON_roundtrip_witness :
  valid_encrypt_key test_key test_world /\
  blockSize <= length (randReader test_world) /\
  exists js w1,
    EncryptedString.MarshalJSON (L := RefLib.lib) (E := RefEncoding.lib) "" test_world
      = (Ok js, w1) /\
    forall w2,
      encryptionKeys w2 !! "encrypt"%string = encryptionKeys test_world !! "encrypt"%string ->
      fst (EncryptedString.UnmarshalJSON (L := RefLib.lib) (E := RefEncoding.lib)
             js ("old"%string, w2)) = JOk tt /\
      fst (snd (EncryptedString.UnmarshalJSON (L := RefLib.lib) (E := RefEncoding.lib)
                  js ("old"%string, w2))) = ""%string.
Proof.
  assert (Hv : valid_encrypt_key test_key test_world) by (split; reflexivity).
  assert (Hr : blockSize <= length (randReader test_world)) by (vm_compute; lia).
  split; [exact Hv|]. split; [exact Hr|].
  exact (MarshalJSON_UnmarshalJSON_roundtrip RefLib.lib RefLib_laws
           RefEncoding.lib RefEncoding_laws "" "old" test_key test_world Hv Hr).
Defined.

Section DecryptPanics.
Context {L : CryptoLib}.
Import EncryptedString.

(** [Decrypt] panics on the empty ciphertext under an acceptable key, and
    nowhere else: its slice expressions are in bounds and the nonce it
    hands to [Open] has twelve bytes. *)
Lemma Decrypt_panics_iff (e : t) ct w :
  (exists p, fst (Decrypt e ct w) = Panic p) <->
  ct = [] /\ exists key, valid_encrypt_key key w.
Proof.
  split.
  - intros [p Hp]. destruct (valid_key_cases w) as [[key Hv]|Hbad].
    2:{ rewrite Decrypt_bad_key in Hp by done. discriminate. }
    split; [|by exists key]. destruct ct as [|version rest]; [done|exfalso].
    destruct (decide (version = encryptionVersion)) as [->|Hver].
    2:{ rewrite (Decrypt_version e version rest key) in Hp by done. discriminate. }
    destruct (decide (length rest < blockSize)) as [Hlen|Hlen].
    { rewrite (Decrypt_short e rest key) in Hp by done. discriminate. }
    rewrite (Decrypt_long e rest key) in Hp by (done || lia). simpl in Hp.
    by destruct (gcm_open _ _ _).
  - intros [-> [key Hv]]. eexists. by rewrite (Decrypt_empty e key).
Qed.

End DecryptPanics.

(** X7. [UnmarshalJSON] is not atomic on error.  When the base64 text is
    corrupt it returns the decoder's error and leaves receiver and world as
    they were; when [Decrypt] fails it returns that error and has already set
    the receiver to the empty string. *)
Theorem UnmarshalJSON_on_error (L : CryptoLib) (E : EncodingLib)
    (b64 : bytes) (e : EncryptedString.t) (w : World) :
  (forall offset,
     fst (EncryptedString.UnmarshalJSON b64 (e, w)) = JErr (CorruptInputError offset) ->
     snd (EncryptedString.UnmarshalJSON b64 (e, w)) = (e, w)) /\
  (forall err,
     fst (EncryptedString.UnmarshalJSON b64 (e, w)) = JErr (CodecError err) ->
     fst (snd (EncryptedString.UnmarshalJSON b64 (e, w))) = ""%string /\
     fst (EncryptedString.Decrypt e (fst (base64_Decode (payload b64))) w) = Err err).
Proof.
  destruct (decide (2 <= length b64)) as [Hlen|Hlen].
  2:{ rewrite UnmarshalJSON_short by lia. by split. }
  rewrite UnmarshalJSON_run by done.
  destruct (base64_Decode (payload b64)) as [ciphertext [offset|]]; [by split|].
  cbn [fst].
  destruct (fst (EncryptedString.Decrypt e ciphertext w)) as [v|err'|p];
    split; try done.
  by intros err [= ->].
Qed.

Lemma UnmarshalJSON_on_error_witness :
  (exists offset,
     fst (EncryptedString.UnmarshalJSON (L := RefLib.lib) (E := RefEncoding.lib)
            [quote; x41; quote] ("old"%string, test_world))
       = JErr (CorruptInputError offset) /\
     snd (EncryptedString.UnmarshalJSON (L := RefLib.lib) (E := RefEncoding.lib)
            [quote; x41; quote] ("old"%string, test_world))
       = ("old"%string, test_world)) /\
  fst (EncryptedString.UnmarshalJSON (L := RefLib.lib) (E := RefEncoding.lib)
         test_json ("old"%string, empty_world))
    = JErr (CodecError (KeySizeError 0)) /\
  fst (snd (EncryptedString.UnmarshalJSON (L := RefLib.lib) (E := RefEncoding.lib)
              test_json ("old"%string, empty_world)))
    = ""%string.
Proof.
  assert (H1 : fst (EncryptedString.UnmarshalJSON (L := RefLib.lib) (E := RefEncoding.lib)
                      [quote; x41; quote] ("old"%string, test_world))
               = JErr (CorruptInputError 1)) by (vm_compute; reflexivity).
  assert (H2 : fst (EncryptedString.UnmarshalJSON (L := RefLib.lib) (E := RefEncoding.lib)
                      test_json ("old"%string, empty_world))
               = JErr (CodecError (KeySizeError 0))) by (vm_compute; reflexivity).
  split.
  - exists 1. split; [exact H1|].
    exact (proj1 (UnmarshalJSON_on_error RefLib.lib RefEncoding.lib
                    [quote; x41; quote] "old" test_world) _ H1).
  - split; [exact H2|].
    exact (proj1 (proj2 (UnmarshalJSON_on_error RefLib.lib RefEncoding.lib
                           test_json "old" empty_world) _ H2)).
Defined.

(** X8. [UnmarshalJSON] panics exactly on an input of fewer than two bytes
    (the slice expression) and on a payload that decodes to no bytes while
    an acceptable key is registered ([Decrypt] indexes the empty
    ciphertext); a panic leaves the receiver as it was.  So the JSON empty
    string, two quotes, makes it panic. *)
Theorem UnmarshalJSON_panics_iff (L : CryptoLib) (E : EncodingLib)
    (HE : EncodingLaws E) (b64 : bytes) (e : EncryptedString.t) (w : World) :
  ((exists p, fst (EncryptedString.UnmarshalJSON b64 (e, w)) = JPanic p) <->
   length b64 < 2 \/
   (base64_Decode (payload b64) = ([], None) /\ exists key, valid_encrypt_key key w)) /\
  (forall p, fst (EncryptedString.UnmarshalJSON b64 (e, w)) = JPanic p ->
     fst (snd (EncryptedString.UnmarshalJSON b64 (e, w))) = e) /\
  (length b64 = 2 -> (exists key, valid_encrypt_key key w) ->
     fst (EncryptedString.UnmarshalJSON b64 (e, w)) = JPanic (IndexOutOfRange 0 0)).
Proof.
  destruct (decide (2 <= length b64)) as [Hlen|Hlen].
  2:{ rewrite UnmarshalJSON_short by lia. split; [|split]; [|done|lia].
      split; [intros _; left; lia|intros _; by eexists]. }
  rewrite UnmarshalJSON_run by done.
  assert (Hempty : length b64 = 2 -> base64_Decode (payload b64) = ([], None)).
  { intros H2. replace (payload b64) with (@nil byte).
    - apply (base64_Decode_Encode []).
    - unfold payload. rewrite H2. done. }
  destruct (base64_Decode (payload b64)) as [ciphertext [offset|]] eqn:Hdec.
  { split; [|split]; [|done|intros H2; by specialize (Hempty H2)].
    split; [by intros [p Hp]|]. intros [?|[[=] _]]. lia. }
  cbn [fst].
  pose proof (Decrypt_panics_iff e ciphertext w) as Hiff.
  split; [|split].
  - split.
    + intros [p Hp]. right.
      destruct (fst (EncryptedString.Decrypt e ciphertext w)) as [v|err|p'] eqn:HD;
        try discriminate.
      destruct (proj1 Hiff (ex_intro _ p' eq_refl)) as [-> Hkey]. by split.
    + intros [?|[[= ->] Hkey]]; [lia|].
      destruct (proj2 Hiff (conj eq_refl Hkey)) as [p ->]. by exists p.
  - intros p. by destruct (fst (EncryptedString.Decrypt e ciphertext w)).
  - intros H2 [key Hv]. specialize (Hempty H2). injection Hempty as ->.
    by rewrite (Decrypt_empty e key).
Qed.

Lemma UnmarshalJSON_panics_iff_witness :
  length [quote; quote] = 2 /\
  (exists key, valid_encrypt_key key test_world) /\
  fst (EncryptedString.UnmarshalJSON (L := RefLib.lib) (E := RefEncoding.lib)
         [quote; quote] ("old"%string, test_world))
    = JPanic (IndexOutOfRange 0 0) /\
  fst (snd (EncryptedString.UnmarshalJSON (L := RefLib.lib) (E := RefEncoding.lib)
              [quote; quote] ("old"%string, test_world)))
    = "old"%string.
Proof.
  assert (Hk : exists key, valid_encrypt_key key test_world)
    by (exists test_key; split; reflexivity).
  destruct (UnmarshalJSON_panics_iff RefLib.lib RefEncoding.lib RefEncoding_laws
              [quote; quote] "old" test_world) as (_ & Hrecv & Htwo).
  split; [reflexivity|]. split; [exact Hk|]. split.
  - exact (Htwo eq_refl Hk).
  - exact (Hrecv _ (Htwo eq_refl Hk)).
Defined.

(** X9. What [MarshalJSON] returns is a quote, the base64 text of the
    ciphertext [Encrypt] made, and a quote: [2 + 4 * ceil((29 + len P) / 3)]
    bytes, 42 at least.  It has no case for the empty plaintext. *)
Theorem MarshalJSON_format (L : CryptoLib) (HL : CryptoLaws L)
    (E : EncodingLib) (HE : EncodingLaws E)
    (P : EncryptedString.t) (w w1 : World) (js : bytes) :
  EncryptedString.MarshalJSON P w = (Ok js, w1) ->
  exists ct,
    EncryptedString.Encrypt P w = (Ok ct, w1) /\
    js = quote :: list_byte_of_string (EncodeToString ct) ++ [quote] /\
    length js = 2 + 4 * ((String.length P + 31) / 3).
Proof.
  intros HM. rewrite MarshalJSON_run in HM.
  destruct (EncryptedString.Encrypt P w) as [[ct|err|p] w'] eqn:HEnc;
    cbn [fst snd] in HM; [|discriminate..].
  injection HM as <- <-. exists ct. split; [done|].
  rewrite json_Marshal_url_safe by apply EncodeToString_url_safe.
  split; [done|].
  cbn [length]. rewrite length_app, length_list_byte_of_string.
  rewrite EncodeToString_length, (Encrypt_length P w ct w' HEnc).
  unfold blockSize, gcmTagSize. simpl length.
  replace (1 + 12 + (String.length P + 16) + 2) with (String.length P + 31) by lia.
  lia.
Qed.

Lemma MarshalJSON_format_witness :
  EncryptedString.MarshalJSON (L := RefLib.lib) (E := RefEncoding.lib)
      "Hello World" test_world = (Ok test_json, test_world1) /\
  exists ct,
    EncryptedString.Encrypt (L := RefLib.lib) "Hello World" test_world = (Ok ct, test_world1) /\
    test_json = quote :: list_byte_of_string (EncodeToString ct) ++ [quote] /\
    length test_json = 2 + 4 * ((String.length "Hello World" + 31) / 3).
Proof.
  assert (HM : EncryptedString.MarshalJSON (L := RefLib.lib) (E := RefEncoding.lib)
                 "Hello World" test_world = (Ok test_json, test_world1))
    by (vm_compute; reflexivity).
  split; [exact HM|].
  exact (MarshalJSON_format RefLib.lib RefLib_laws RefEncoding.lib RefEncoding_laws
           "Hello World" test_world test_world1 test_json HM).
Defined.

(** *** The registry and the entropy across calls *)

Section FrameFacts.
Context {L : CryptoLib} {E : EncodingLib}.
Import EncryptedString.

Lemma keeps_keys_MarshalJSON P : keeps encryptionKeys (MarshalJSON P).
Proof.
  unfold MarshalJSON.
  apply keeps_bind; [auto with frame|intros enc; apply keeps_ret].
Qed.

(** [Scan] and [UnmarshalJSON] change the world only through [Decrypt]. *)
Lemma Scan_keeps {X} (f : World -> X) (src : driver_Value) (e : t) w :
  (forall ev w, f (log ev w) = f w) ->
  f (snd (snd (Scan src (e, w)))) = f w.
Proof.
  intros Hlog. destruct src as [| | | |v| |]; try done.
  destruct v as [|x v]; [done|]. rewrite Scan_bytes by done.
  pose proof (keeps_Decrypt f Hlog e (x :: v) w) as H.
  by destruct (fst (Decrypt e (x :: v) w)).
Qed.

Lemma UnmarshalJSON_keeps {X} (f : World -> X) (b64 : bytes) (e : t) w :
  (forall ev w, f (log ev w) = f w) ->
  f (snd (snd (UnmarshalJSON b64 (e, w)))) = f w.
Proof.
  intros Hlog. destruct (decide (2 <= length b64)) as [Hlen|Hlen].
  2:{ by rewrite UnmarshalJSON_short by lia. }
  rewrite UnmarshalJSON_run by done.
  destruct (base64_Decode (payload b64)) as [ciphertext [offset|]]; [done|].
  pose proof (keeps_Decrypt f Hlog e ciphertext w) as H.
  by destruct (fst (Decrypt e ciphertext w)).
Qed.

Lemma AddKey_keeps_entries name key name' key' w :
  has_key name' key' w -> has_key name' key' (snd (AddKey name key w)).
Proof.
  intros H. destruct (encryptionKeys w !! name) as [old|] eqn:Hold.
  - by rewrite (AddKey_taken name key old).
  - rewrite AddKey_fresh by done. unfold has_key in *. simpl.
    rewrite lookup_insert_ne; [done|]. intros ->. congruence.
Qed.

Lemma Encrypt_entropy (P : t) w ct w1 :
  Encrypt P w = (Ok ct, w1) ->
  blockSize <= length (randReader w) /\
  randReader w1 = drop blockSize (randReader w).
Proof.
  intros HEnc. destruct (valid_key_cases w) as [[key Hv]|Hbad].
  2:{ rewrite Encrypt_bad_key in HEnc by done. discriminate. }
  destruct (decide (blockSize <= length (randReader w))) as [Hr|Hr].
  2:{ destruct (Encrypt_no_entropy P key w Hv Hr) as (err & w' & Herr).
      rewrite Herr in HEnc. discriminate. }
  split; [done|]. by destruct (Encrypt_nonce P w ct w1 HEnc).
Qed.

End FrameFacts.

(** X10. The registry is append-only and only [AddKey] writes it: [AddKey]
    keeps every entry that was there, with its key bytes, and no other
    function of the package changes [encryptionKeys], whatever it returns. *)
Theorem registry_is_append_only (L : CryptoLib) (E : EncodingLib)
    (P e : EncryptedString.t) (b : BlindIndexHash.t) (ct b64 key : bytes)
    (name : string) (src : driver_Value) (w : World) :
  (forall name' key', has_key name' key' w ->
     has_key name' key' (snd (AddKey name key w))) /\
  encryptionKeys (snd (EncryptedString.Encrypt P w)) = encryptionKeys w /\
  encryptionKeys (snd (EncryptedString.Decrypt e ct w)) = encryptionKeys w /\
  encryptionKeys (snd (EncryptedString.Value P w)) = encryptionKeys w /\
  encryptionKeys (snd (snd (EncryptedString.Scan src (e, w)))) = encryptionKeys w /\
  encryptionKeys (snd (EncryptedString.MarshalJSON P w)) = encryptionKeys w /\
  encryptionKeys (snd (snd (EncryptedString.UnmarshalJSON b64 (e, w)))) = encryptionKeys w /\
  encryptionKeys (snd (BlindIndexHash.GetHash b w)) = encryptionKeys w /\
  encryptionKeys (snd (BlindIndexHash.GetBase64 b w)) = encryptionKeys w /\
  encryptionKeys (snd (BlindIndexHash.Value b w)) = encryptionKeys w.
Proof.
  split_and!.
  - intros name' key'. apply AddKey_keeps_entries.
  - apply keeps_keys_Encrypt.
  - apply keeps_Decrypt; auto with frame.
  - apply keeps_keys_Value.
  - apply Scan_keeps; auto with frame.
  - apply keeps_keys_MarshalJSON.
  - apply UnmarshalJSON_keeps; auto with frame.
  - apply keeps_GetHash; auto with frame.
  - apply keeps_GetBase64; auto with frame.
  - apply keeps_BlindIndexHash_Value; auto with frame.
Qed.

Lemma registry_is_append_only_witness :
  has_key "encrypt" test_key test_world /\
  has_key "encrypt" test_key (snd (AddKey "blindIndex" [x00] test_world)) /\
  has_key "encrypt" test_key (snd (AddKey "encrypt" [x00] test_world)).
Proof.
  assert (H : has_key "encrypt" test_key test_world) by reflexivity.
  split; [exact H|]. split.
  - exact (proj1 (registry_is_append_only RefLib.lib RefEncoding.lib "" "" "" [] [] [x00]
                    "blindIndex" VNil test_world) _ _ H).
  - exact (proj1 (registry_is_append_only RefLib.lib RefEncoding.lib "" "" "" [] [] [x00]
                    "encrypt" VNil test_world) _ _ H).
Defined.

(** X11. Entropy is drawn by [Encrypt] alone: a successful [Encrypt] takes
    exactly twelve bytes off the random source, and [Decrypt], [Scan],
    [UnmarshalJSON] and the blind-index functions leave it untouched. *)
Theorem entropy_is_drawn_by_Encrypt_alone (L : CryptoLib) (E : EncodingLib)
    (P e : EncryptedString.t) (b : BlindIndexHash.t) (ct b64 : bytes)
    (src : driver_Value) (w : World) :
  (forall enc w1, EncryptedString.Encrypt P w = (Ok enc, w1) ->
     randReader w1 = drop blockSize (randReader w) /\
     length (randReader w) = blockSize + length (randReader w1)) /\
  randReader (snd (EncryptedString.Decrypt e ct w)) = randReader w /\
  randReader (snd (snd (EncryptedString.Scan src (e, w)))) = randReader w /\
  randReader (snd (snd (EncryptedString.UnmarshalJSON b64 (e, w)))) = randReader w /\
  randReader (snd (BlindIndexHash.GetBase64 b w)) = randReader w /\
  randReader (snd (BlindIndexHash.Value b w)) = randReader w.
Proof.
  split_and!.
  - intros enc w1 HEnc. destruct (Encrypt_entropy P w enc w1 HEnc) as [Hr ->].
    split; [done|]. rewrite length_drop. lia.
  - apply keeps_Decrypt; auto with frame.
  - apply Scan_keeps; auto with frame.
  - apply UnmarshalJSON_keeps; auto with frame.
  - apply keeps_GetBase64; auto with frame.
  - apply keeps_BlindIndexHash_Value; auto with frame.
Qed.

Lemma entropy_is_drawn_by_Encrypt_alone_witness :
  EncryptedString.Encrypt (L := RefLib.lib) "Hello World" test_world
    = (Ok test_ct, test_world1) /\
  randReader test_world1 = drop blockSize (randReader test_world) /\
  length (randReader test_world) = blockSize + length (randReader test_world1).
Proof.
  assert (HEnc : EncryptedString.Encrypt (L := RefLib.lib) "Hello World" test_world
                   = (Ok test_ct, test_world1)) by (vm_compute; reflexivity).
  split; [exact HEnc|].
  exact (proj1 (entropy_is_drawn_by_Encrypt_alone RefLib.lib RefEncoding.lib
                  "Hello World" "" "" [] [] VNil test_world) _ _ HEnc).
Defined.

(** *** Registering the codec's key *)

(** X12. [AddKey] does not look at the key: bytes of a size AES refuses are
    registered all the same, after which every [Encrypt] and [Decrypt] fails
    with [KeySizeError] of that size, and [AddKey] refuses to replace them. *)
Theorem AddKey_accepts_any_key_size (L : CryptoLib) (key : bytes) (w : World) :
  encryptionKeys w !! "encrypt" = None ->
  aes_key_size_ok (length key) = false ->
  exists w1,
    AddKey "encrypt" key w = (Ok tt, w1) /\
    (forall P, fst (EncryptedString.Encrypt P w1) = Err (KeySizeError (length key))) /\
    (forall e ct, fst (EncryptedString.Decrypt e ct w1) = Err (KeySizeError (length key))) /\
    (forall key', AddKey "encrypt" key' w1 = (Err ErrKeyAlreadyExists, w1)).
Proof.
  intros Hfree Hsz. eexists. split; [by apply AddKey_fresh|].
  set (w1 := set_keys _ w).
  assert (Hk : encryptionKeys w1 !! "encrypt" = Some key) by apply lookup_insert_eq.
  split_and!.
  - intros P. rewrite Encrypt_bad_key; by rewrite Hk.
  - intros e ct. rewrite Decrypt_bad_key; by rewrite Hk.
  - intros key'. by apply (AddKey_taken "encrypt" key' key).
Qed.

Lemma AddKey_accepts_any_key_size_witness :
  encryptionKeys empty_world !! "encrypt"%string = None /\
  aes_key_size_ok (length [x00; x01; x02]) = false /\
  exists w1,
    AddKey "encrypt" [x00; x01; x02] empty_world = (Ok tt, w1) /\
    (forall P, fst (EncryptedString.Encrypt (L := RefLib.lib) P w1)
                 = Err (KeySizeError (length [x00; x01; x02]))) /\
    (forall e ct, fst (EncryptedString.Decrypt (L := RefLib.lib) e ct w1)
                    = Err (KeySizeError (length [x00; x01; x02]))) /\
    (forall key', AddKey "encrypt" key' w1 = (Err ErrKeyAlreadyExists, w1)).
Proof.
  assert (H1 : encryptionKeys empty_world !! "encrypt"%string = None) by reflexivity.
  assert (H2 : aes_key_size_ok (length [x00; x01; x02]) = false) by reflexivity.
  split; [exact H1|]. split; [exact H2|].
  exact (AddKey_accepts_any_key_size RefLib.lib [x00; x01; x02] empty_world H1 H2).
Defined.

(** X13. Registering a key of 16, 24 or 32 bytes under "encrypt" in a
    registry that has none makes the codec work: with twelve bytes of
    entropy, [Encrypt] then returns a ciphertext that [Decrypt] turns back
    into the plaintext. *)
Theorem AddKey_then_roundtrip (L : CryptoLib) (HL : CryptoLaws L)
    (P e : EncryptedString.t) (key : bytes) (w : World) :
  encryptionKeys w !! "encrypt" = None ->
  aes_key_size_ok (length key) = true ->
  blockSize <= length (randReader w) ->
  exists w1 ct w2,
    AddKey "encrypt" key w = (Ok tt, w1) /\
    EncryptedString.Encrypt P w1 = (Ok ct, w2) /\
    fst (EncryptedString.Decrypt e ct w2) = Ok P.
Proof.
  intros Hfree Hsz Hr. eexists _, _, _. split; [by apply AddKey_fresh|].
  set (w1 := set_keys _ w).
  assert (Hv : valid_encrypt_key key w1) by (split; [apply lookup_insert_eq|done]).
  pose proof (@Encrypt_run L P key w1 Hv Hr) as HEnc.
  split; [exact HEnc|]. by apply (Decrypt_Encrypt P e w1 _ _ _ HEnc).
Qed.

Lemma AddKey_then_roundtrip_witness :
  encryptionKeys empty_world !! "encrypt"%string = None /\
  aes_key_size_ok (length test_key) = true /\
  blockSize <= length (randReader empty_world) /\
  exists w1 ct w2,
    AddKey "encrypt" test_key empty_world = (Ok tt, w1) /\
    EncryptedString.Encrypt (L := RefLib.lib) "Hello World" w1 = (Ok ct, w2) /\
    fst (EncryptedString.Decrypt (L := RefLib.lib) "" ct w2) = Ok "Hello World"%string.
Proof.
  assert (H1 : encryptionKeys empty_world !! "encrypt"%string = None) by reflexivity.
  assert (H2 : aes_key_size_ok (length test_key) = true) by reflexivity.
  assert (H3 : blockSize <= length (randReader empty_world)) by (vm_compute; lia).
  split; [exact H1|]. split; [exact H2|]. split; [exact H3|].
  exact (AddKey_then_roundtrip RefLib.lib RefLib_laws "Hello World" ""
           test_key empty_world H1 H2 H3).
Defined.

(** *** Panics and diagnostics *)

(** X14. Apart from [Decrypt] and [UnmarshalJSON], no function of the
    package panics: every index and slice expression is in bounds and every
    nonce handed to the AEAD has twelve bytes.  [Decrypt] panics exactly on
    the empty ciphertext under a key AES accepts; [Scan] guards that case. *)
Theorem panics_only_on_empty_ciphertext (L : CryptoLib) (E : EncodingLib)
    (P e : EncryptedString.t) (b : BlindIndexHash.t) (ct key : bytes)
    (name : string) (src : driver_Value) (w : World) :
  never_panics (AddKey name key) /\
  never_panics (EncryptedString.Encrypt P) /\
  never_panics (EncryptedString.Value P) /\
  never_panics (EncryptedString.MarshalJSON P) /\
  never_panics (EncryptedString.Scan src) /\
  never_panics (BlindIndexHash.GetHash b) /\
  never_panics (BlindIndexHash.GetBase64 b) /\
  never_panics (BlindIndexHash.Value b) /\
  ((exists p, fst (EncryptedString.Decrypt e ct w) = Panic p) <->
   ct = [] /\ exists key, valid_encrypt_key key w).
Proof.
  assert (HEnc : never_panics (EncryptedString.Encrypt P)).
  { intros s p.
    destruct (Encrypt_outcomes P s) as [[k ->]|[->|[->|[c ->]]]]; discriminate. }
  split_and!; try done.
  - intros s p. destruct (encryptionKeys s !! name) as [old|] eqn:Hold.
    + by rewrite (AddKey_taken name key old).
    + by rewrite AddKey_fresh.
  - intros s p. specialize (HEnc s p).
    destruct (decide (P = ""%string)) as [->|HP]; [done|].
    rewrite Value_nonempty by done.
    destruct (fst (EncryptedString.Encrypt P s)); simpl; congruence.
  - intros s p. specialize (HEnc s p). rewrite MarshalJSON_run.
    destruct (fst (EncryptedString.Encrypt P s)); simpl; congruence.
  - intros [e' s] p. destruct src as [| | | |v| |]; try done.
    destruct v as [|x v]; [done|]. rewrite Scan_bytes by done.
    destruct (fst (EncryptedString.Decrypt e' (x :: v) s)) as [val|err|p'] eqn:HD;
      [done..|].
    by destruct (proj1 (Decrypt_panics_iff e' (x :: v) s) (ex_intro _ p' HD)).
  - intros s p. unfold BlindIndexHash.Value. by destruct (String.eqb b "").
  - apply Decrypt_panics_iff.
Qed.

Section Diagnostics.
Context {L : CryptoLib}.
Import EncryptedString.

Lemma Decrypt_trace (e : t) ct w :
  exists evs,
    trace (snd (Decrypt e ct w)) = trace w ++ evs /\
    ((exists line, In (EvPrintln line) evs) <->
     fst (Decrypt e ct w) = Err ErrVersionMismatch).
Proof.
  destruct (valid_key_cases w) as [[key Hv]|Hbad].
  2:{ rewrite Decrypt_bad_key by done. eexists [_]. split; [done|].
      split; [intros [line [[=]|[]]]|discriminate]. }
  destruct ct as [|version rest].
  { rewrite (Decrypt_empty e key) by done. eexists [_]. split; [done|].
    split; [intros [line [[=]|[]]]|discriminate]. }
  destruct (decide (version = encryptionVersion)) as [->|Hver].
  2:{ rewrite (Decrypt_version e version rest key) by done.
      eexists [_; _]. split; [simpl; by rewrite <- app_assoc|].
      split; [done|]. intros _. eexists. right. by left. }
  destruct (decide (length rest < blockSize)) as [Hlen|Hlen].
  { rewrite (Decrypt_short e rest key) by done. eexists [_]. split; [done|].
    split; [intros [line [[=]|[]]]|discriminate]. }
  rewrite (Decrypt_long e rest key) by (done || lia).
  eexists [_; _; _]. split; [done|].
  split; [intros [line [[=]|[[=]|[[=]|[]]]]]|].
  simpl. by destruct (gcm_open _ _ _).
Qed.

End Diagnostics.

(** X15. [Decrypt] writes its diagnostic line to standard output exactly
    when it returns [ErrVersionMismatch]; every other outcome, the panic
    included, prints nothing. *)
Theorem Decrypt_prints_iff_version_mismatch (L : CryptoLib)
    (e : EncryptedString.t) (ct : bytes) (w : World) :
  exists evs,
    trace (snd (EncryptedString.Decrypt e ct w)) = trace w ++ evs /\
    ((exists line, In (EvPrintln line) evs) <->
     fst (EncryptedString.Decrypt e ct w) = Err ErrVersionMismatch).
Proof. apply Decrypt_trace. Qed.

(** *** The blind index as text *)

(** X16. Comparing blind indexes as base64 text is comparing the digests:
    two calls of [GetBase64] return the same text exactly when the two calls
    of [GetHash] return the same digest. *)
Theorem GetBase64_equal_iff_GetHash_equal (L : CryptoLib)
    (b1 b2 : BlindIndexHash.t) (w1 w2 : World) :
  fst (BlindIndexHash.GetBase64 b1 w1) = fst (BlindIndexHash.GetBase64 b2 w2) <->
  fst (BlindIndexHash.GetHash b1 w1) = fst (BlindIndexHash.GetHash b2 w2).
Proof.
  rewrite !GetBase64_run, !GetHash_run. cbn [fst]. split.
  - intros [= H]. f_equal. by apply EncodeToString_inj.
  - by intros [= ->].
Qed.

(** X17. The blind-index functions never return an error, whatever the
    registry holds: [GetHash] returns a 64-byte digest and [GetBase64] its
    88-character text.  With no key under "blindIndex" the digest is the
    HMAC under the empty key, the same as with the empty key registered. *)
Theorem blind_index_never_fails (L : CryptoLib) (HL : CryptoLaws L)
    (b : BlindIndexHash.t) (w : World) :
  exists digest,
    fst (BlindIndexHash.GetHash b w) = Ok digest /\
    length digest = 64 /\
    fst (BlindIndexHash.GetBase64 b w) = Ok (EncodeToString digest) /\
    String.length (EncodeToString digest) = 88 /\
    (encryptionKeys w !! "blindIndex" = None ->
       digest = hmac_sha512 [] (list_byte_of_string b) /\
       forall w', has_key "blindIndex" [] w' ->
         fst (BlindIndexHash.GetHash b w') = Ok digest).
Proof.
  eexists. rewrite GetBase64_run, GetHash_run. cbn [fst].
  split; [done|]. split; [apply hmac_sha512_length|]. split; [done|].
  split; [by rewrite EncodeToString_length, hmac_sha512_length|].
  intros Hnone. rewrite Hnone. split; [done|].
  intros w' Hk. rewrite GetHash_run. unfold has_key in Hk. by rewrite Hk.
Qed.

Lemma blind_index_never_fails_witness :
  encryptionKeys empty_world !! "blindIndex"%string = None /\
  exists digest,
    fst (BlindIndexHash.GetHash (L := RefLib.lib) "Hello World" empty_world) = Ok digest /\
    length digest = 64 /\
    fst (BlindIndexHash.GetBase64 (L := RefLib.lib) "Hello World" empty_world)
      = Ok (EncodeToString digest) /\
    String.length (EncodeToString digest) = 88 /\
    (encryptionKeys empty_world !! "blindIndex"%string = None ->
       digest = RefLib.mac [] (list_byte_of_string "Hello World") /\
       forall w', has_key "blindIndex" [] w' ->
         fst (BlindIndexHash.GetHash (L := RefLib.lib) "Hello World" w') = Ok digest).
Proof.
  split; [reflexivity|].
  exact (blind_index_never_fails RefLib.lib RefLib_laws "Hello World" empty_world).
Defined.

(** *** What [UnmarshalJSON] does not look at *)

(** X18. [UnmarshalJSON] drops the first and the last byte of its input
    without looking at them: whatever stands there, quotes or not, the
    result and the state it leaves are those for the text in between. *)
Theorem UnmarshalJSON_ignores_delimiters (L : CryptoLib) (E : EncodingLib)
    (text : bytes) (first last first' last' : byte)
    (e : EncryptedString.t) (w : World) :
  EncryptedString.UnmarshalJSON (first :: text ++ [last]) (e, w) =
  EncryptedString.UnmarshalJSON (first' :: text ++ [last']) (e, w).
Proof.
  rewrite !UnmarshalJSON_run by (cbn [length]; rewrite length_app; simpl; lia).
  by rewrite !payload_quoted.
Qed.

(** *** The order of [Decrypt]'s checks *)

(** X19. [Decrypt] decides in this order: the key's size, then the first
    byte (a panic when there is none, [ErrVersionMismatch] when it is not the
    version), then the length, then the AEAD.  So a bad key hides every
    defect of the ciphertext, the empty one included, and a wrong version
    hides a short ciphertext. *)
Theorem Decrypt_order_of_checks (L : CryptoLib)
    (e : EncryptedString.t) (ct : bytes) (w : World) :
  let key := default [] (encryptionKeys w !! "encrypt") in
  (aes_key_size_ok (length key) = false ->
     fst (EncryptedString.Decrypt e ct w) = Err (KeySizeError (length key))) /\
  (aes_key_size_ok (length key) = true ->
     (ct = [] ->
        fst (EncryptedString.Decrypt e ct w) = Panic (IndexOutOfRange 0 0)) /\
     (forall version rest, ct = version :: rest -> version <> encryptionVersion ->
        fst (EncryptedString.Decrypt e ct w) = Err ErrVersionMismatch) /\
     (forall rest, ct = encryptionVersion :: rest -> length rest < blockSize ->
        fst (EncryptedString.Decrypt e ct w) = Err ErrShortCipher) /\
     (forall rest, ct = encryptionVersion :: rest -> blockSize <= length rest ->
        fst (EncryptedString.Decrypt e ct w) =
          match gcm_open key (take blockSize rest) (drop blockSize rest) with
          | Some plaintext => Ok (string_of_list_byte plaintext)
          | None => Err errOpen
          end)).
Proof.
  intros key. split.
  - intros Hbad. by rewrite Decrypt_bad_key.
  - intros Hok.
    assert (Hv : valid_encrypt_key key w).
    { subst key. destruct (encryptionKeys w !! "encrypt") as [k|] eqn:Hk; [|done].
      by split. }
    split_and!.
    + intros ->. by rewrite (Decrypt_empty e key).
    + intros version rest -> Hver. by rewrite (Decrypt_version e version rest key).
    + intros rest -> Hlen. by rewrite (Decrypt_short e rest key).
    + intros rest -> Hlen. by rewrite (Decrypt_long e rest key).
Qed.

Lemma Decrypt_order_of_checks_witness :
  aes_key_size_ok (length (default [] (encryptionKeys empty_world !! "encrypt"%string))) = false /\
  fst (EncryptedString.Decrypt (L := RefLib.lib) "" [] empty_world) = Err (KeySizeError 0) /\
  aes_key_size_ok (length (default [] (encryptionKeys test_world !! "encrypt"%string))) = true /\
  x01 <> encryptionVersion /\
  fst (EncryptedString.Decrypt (L := RefLib.lib) "" [x01] test_world) = Err ErrVersionMismatch /\
  length [x00; x00] < blockSize /\
  fst (EncryptedString.Decrypt (L := RefLib.lib) "" [encryptionVersion; x00; x00] test_world)
    = Err ErrShortCipher.
Proof.
  assert (H1 : aes_key_size_ok
                 (length (default [] (encryptionKeys empty_world !! "encrypt"%string))) = false)
    by reflexivity.
  assert (H2 : aes_key_size_ok
                 (length (default [] (encryptionKeys test_world !! "encrypt"%string))) = true)
    by reflexivity.
  assert (H3 : x01 <> encryptionVersion) by discriminate.
  assert (H4 : length [x00; x00] < blockSize) by (vm_compute; lia).
  split; [exact H1|]. split.
  { exact (proj1 (Decrypt_order_of_checks RefLib.lib "" [] empty_world) H1). }
  split; [exact H2|]. split; [exact H3|]. split.
  { exact (proj1 (proj2 (proj2 (Decrypt_order_of_checks RefLib.lib "" [x01] test_world) H2))
             x01 [] eq_refl H3). }
  split; [exact H4|].
  exact (proj1 (proj2 (proj2 (proj2 (Decrypt_order_of_checks RefLib.lib ""
                  [encryptionVersion; x00; x00] test_world) H2)))
           [x00; x00] eq_refl H4).
Defined.
